(** * Session replay page of ai-atc-demo: model and properties

    Shallow embedding of [frontend/src/routes/replay/[id]/+page.svelte]:
    the derived views ([maxTime], [snapshots], [currentAircraft],
    [timelineEvents]), the helper [interpolateAngle], the loader
    [fetchEvents] and the playback transport ([play], [pause], [tick],
    [seek], [handleKeydown]).

    Numbers.  A finite JavaScript number is modelled by an exact rational
    [Q]; rounding of IEEE doubles is not modelled.  A value that may fail
    to be a finite number has type [num = option Q]: [None] is
    [undefined] for a field read from the parsed JSON (which holds a finite
    number or is absent) and NaN for a computed value.  Comparisons and
    arithmetic treat both alike; [===], the one operation that tells them
    apart, is applied to JSON fields only.  The properties stated are
    orders, bounds, clamps and values that the code computes by one
    expression; none rests on a cancellation that rounding breaks. *)

From Stdlib Require Import QArith Qround Qminmax ZArith List Bool String Lia Lqa.
From Stdlib Require Import Sorting.Sorted Sorting.Permutation.
From Stdlib Require DecimalString DecimalZ DecimalPos.
Import ListNotations.

Open Scope Q_scope.

(** ** JavaScript numbers *)

Definition num := option Q.

Module JsNum.

Definition lift2 (f : Q -> Q -> Q) (x y : num) : num :=
  match x, y with
  | Some a, Some b => Some (f a b)
  | _, _ => None
  end.

Definition add := lift2 Qplus.
Definition sub := lift2 Qminus.
Definition mul := lift2 Qmult.

(** [x / y].  A zero divisor would give an infinity or NaN; [num] has no
    infinity, and the one division of the page whose divisor is not a
    literal, in [state_at], is guarded by [!==] on its two operands. *)
Definition div (x y : num) : num :=
  match x, y with
  | Some a, Some b => if Qeq_bool b 0 then None else Some (a / b)
  | _, _ => None
  end.

(** [x < y] on finite numbers. *)
Definition ltb (x y : Q) : bool := negb (Qle_bool y x).

(** [x <= y], [x >= y], [x < y], [x > y] with a left operand that may be
    [undefined] or NaN: the comparison is then false. *)
Definition le (x : num) (y : Q) : bool :=
  match x with Some a => Qle_bool a y | None => false end.

Definition ge (x : num) (y : Q) : bool :=
  match x with Some a => Qle_bool y a | None => false end.

Definition lt (x : num) (y : Q) : bool :=
  match x with Some a => ltb a y | None => false end.

Definition gt (x : num) (y : Q) : bool :=
  match x with Some a => ltb y a | None => false end.

(** [x === y] on two JSON fields. *)
Definition strict_eq (x y : num) : bool :=
  match x, y with
  | Some a, Some b => Qeq_bool a b
  | None, None => true
  | _, _ => false
  end.

(** [x || 0]: [undefined] and [0] are falsy. *)
Definition or_zero (x : num) : Q :=
  match x with
  | Some a => if Qeq_bool a 0 then 0 else a
  | None => 0
  end.

(** Truncation towards zero. *)
Definition trunc (x : Q) : Z := Z.quot (Qnum x) (Zpos (Qden x)).

(** [x % m] for a non-zero literal [m]: the remainder has the sign of
    the dividend. *)
Definition rem (x : num) (m : Q) : num :=
  match x with
  | Some a => Some (a - m * inject_Z (trunc (a / m)))
  | None => None
  end.

(** [Math.max(...xs)] on a non-empty argument list. *)
Definition max_list (x : Q) (xs : list Q) : Q := fold_left Qmax xs x.

End JsNum.

(** ** [Map] with string keys

    Entries are kept in insertion order; setting a key that is present
    replaces its value in place. *)

Module JsMap.

Definition t (V : Type) := list (string * V).

Fixpoint set {V} (k : string) (v : V) (m : t V) : t V :=
  match m with
  | [] => [(k, v)]
  | (k', v') :: m' =>
      if String.eqb k k' then (k', v) :: m' else (k', v') :: set k v m'
  end.

Fixpoint get {V} (k : string) (m : t V) : option V :=
  match m with
  | [] => None
  | (k', v) :: m' => if String.eqb k k' then Some v else get k m'
  end.

(** [new Map(entries)] *)
Definition of_entries {V} (entries : list (string * V)) : t V :=
  fold_left (fun m e => set (fst e) (snd e) m) entries [].

End JsMap.

(** ** Data model *)

Record Aircraft := mkAircraft {
  callsign : string;
  position : num * num;
  altitude : num;
  heading : num;
  speed : num;
  phase : option string;
  (** the index signature [[key: string]: unknown]: any further
      properties of the object, in property order *)
  extra : list (string * string)
}.

(** An element of the [events] array.  The page declares it [any] and
    probes the fields it needs; every field may be absent. *)
Record Event := mkEvent {
  event_type : option string;
  game_time : num;
  aircraft : option (list Aircraft);
  score : num;
  aircraft1 : option string;
  aircraft2 : option string;
  ev_callsign : option string;
  runway : option string
}.

(** [e.event_type === kind] *)
Definition has_type (kind : string) (e : Event) : bool :=
  match event_type e with
  | Some s => String.eqb s kind
  | None => false
  end.

(** ** Derived views of the event list *)

Definition maxTime (events : list Event) : Q :=
  match map (fun e => JsNum.or_zero (game_time e)) events with
  | [] => 0
  | x :: xs => JsNum.max_list x xs
  end.

Definition snapshots (events : list Event) : list Event :=
  filter (has_type "state_snapshot") events.

Definition decisions (events : list Event) : list Event :=
  filter (has_type "decision") events.

Definition conflicts (events : list Event) : list Event :=
  filter (has_type "conflict") events.

(** ** [interpolateAngle] *)

Definition interpolateAngle (a b t : num) : num :=
  let diff := JsNum.sub b a in
  let diff := if JsNum.gt diff 180 then JsNum.sub diff (Some 360) else diff in
  let diff := if JsNum.lt diff (-(180)) then JsNum.add diff (Some 360) else diff in
  JsNum.rem (JsNum.add (JsNum.add a (JsNum.mul diff t)) (Some 360)) 360.

(** ** [currentAircraft]: the state at the cursor

    [before === after] compares object identities.  The two variables
    always hold elements of the [snapshots] array, whose elements are
    distinct objects, so a snapshot is carried with its array index and
    identity is equality of indices. *)

Definition Ref := (nat * Event)%type.

Definition indexed (l : list Event) : list Ref := combine (seq 0 (List.length l)) l.

Definition ref_time (r : Ref) : num := game_time (snd r).

(** The [for (const snap of snapshots)] loop. *)
Fixpoint bracket_loop (currentTime : Q) (l : list Ref) (before after : Ref)
  : Ref * Ref :=
  match l with
  | [] => (before, after)
  | snap :: rest =>
      let before' :=
        if JsNum.le (ref_time snap) currentTime then snap else before in
      let after' :=
        if JsNum.ge (ref_time snap) currentTime
           && JsNum.lt (ref_time after) currentTime
        then snap else after in
      bracket_loop currentTime rest before' after'
  end.

(** The bracketing snapshots, [None] when there is no snapshot. *)
Definition bracket (snaps : list Event) (currentTime : Q) : option (Ref * Ref) :=
  match indexed snaps with
  | [] => None
  | (s0 :: _) as all => Some (bracket_loop currentTime all s0 s0)
  end.

(** [before.aircraft || []] *)
Definition aircraft_or_empty (e : Event) : list Aircraft :=
  match aircraft e with
  | Some l => l
  | None => []
  end.

Definition is_none {A} (o : option A) : bool :=
  match o with Some _ => false | None => true end.

(** The test that returns [before]'s list without interpolation. *)
Definition no_interpolation (before after : Ref) : bool :=
  Nat.eqb (fst before) (fst after)
  || is_none (aircraft (snd before))
  || is_none (aircraft (snd after))
  || JsNum.strict_eq (ref_time before) (ref_time after).

Definition callsign_map (l : list Aircraft) : JsMap.t Aircraft :=
  JsMap.of_entries (map (fun a => (callsign a, a)) l).

(** One iteration of [for (const [callsign, beforeAc] of beforeMap)]:
    the record pushed on [result]. *)
Definition interpolate_entry (afterMap : JsMap.t Aircraft) (t : num)
  (entry : string * Aircraft) : Aircraft :=
  let beforeAc := snd entry in
  match JsMap.get (fst entry) afterMap with
  | Some afterAc =>
      {| callsign := callsign beforeAc;
         position :=
           (JsNum.add (fst (position beforeAc))
              (JsNum.mul (JsNum.sub (fst (position afterAc))
                                    (fst (position beforeAc))) t),
            JsNum.add (snd (position beforeAc))
              (JsNum.mul (JsNum.sub (snd (position afterAc))
                                    (snd (position beforeAc))) t));
         altitude :=
           JsNum.add (altitude beforeAc)
             (JsNum.mul (JsNum.sub (altitude afterAc) (altitude beforeAc)) t);
         heading := interpolateAngle (heading beforeAc) (heading afterAc) t;
         speed :=
           JsNum.add (speed beforeAc)
             (JsNum.mul (JsNum.sub (speed afterAc) (speed beforeAc)) t);
         phase := phase beforeAc;
         extra := extra beforeAc |}
  | None => beforeAc
  end.

Definition interpolate (beforeList afterList : list Aircraft) (t : num)
  : list Aircraft :=
  let beforeMap := callsign_map beforeList in
  let afterMap := callsign_map afterList in
  map (interpolate_entry afterMap t) beforeMap.

(** The interpolation fraction. *)
Definition fraction (currentTime : Q) (before after : Ref) : num :=
  JsNum.div (JsNum.sub (Some currentTime) (ref_time before))
            (JsNum.sub (ref_time after) (ref_time before)).

Definition state_at (snaps : list Event) (currentTime : Q) : list Aircraft :=
  match bracket snaps currentTime with
  | None => []
  | Some (before, after) =>
      if no_interpolation before after
      then aircraft_or_empty (snd before)
      else interpolate (aircraft_or_empty (snd before))
                       (aircraft_or_empty (snd after))
                       (fraction currentTime before after)
  end.

(** ** [timelineEvents]: the markers of the scrubber *)

Record Marker := mkMarker {
  time : num;
  type : string;
  label : string
}.

(** [`${x}`] for a string field that may be absent. *)
Definition show (x : option string) : string :=
  match x with
  | Some s => s
  | None => "undefined"
  end.

Definition conflict_marker (c : Event) : Marker :=
  {| time := game_time c;
     type := "conflict";
     label := "Conflict: " ++ show (aircraft1 c) ++ " / " ++ show (aircraft2 c) |}.

Definition ils_marker (e : Event) : Marker :=
  {| time := game_time e;
     type := "ils";
     label := "ILS: " ++ show (ev_callsign e) ++ " → " ++ show (runway e) |}.

(** The array [markers] after the two [for] loops, before it is sorted. *)
Definition pushed_markers (events : list Event) : list Marker :=
  map conflict_marker (conflicts events)
  ++ map ils_marker (filter (has_type "ils_clearance") events).

(** [Array.prototype.sort(compare)].  The built-in is stable, and for a
    consistent comparator its result is the one stable arrangement in
    comparator order; it is modelled by a stable insertion sort.  A NaN
    returned by the comparator counts as [+0].  With an inconsistent
    comparator the language leaves the order to the implementation and the
    model is one admissible choice. *)
Module JsArray.

Fixpoint insert {A} (compare : A -> A -> num) (x : A) (l : list A) : list A :=
  match l with
  | [] => [x]
  | y :: l' =>
      if JsNum.gt (compare x y) 0
      then y :: insert compare x l'
      else x :: y :: l'
  end.

Definition sort {A} (compare : A -> A -> num) (l : list A) : list A :=
  fold_right (insert compare) [] l.

End JsArray.

(** The comparator [(a, b) => a.time - b.time]. *)
Definition by_time (a b : Marker) : num := JsNum.sub (time a) (time b).

Definition timelineEvents (events : list Event) : list Marker :=
  JsArray.sort by_time (pushed_markers events).

(** ** Page state

    The [$state] variables of the component and the two plain variables
    [animationFrame] and [lastRealTime], together with the browser's list
    of animation-frame callbacks that are requested and not yet run or
    cancelled.  Handles are positive, as the browser issues them:
    [frameCount] is the last handle issued. *)

Record Page := mkPage {
  events : list Event;
  loading : bool;
  error : option string;
  playing : bool;
  currentTime : Q;
  playbackSpeed : Q;
  animationFrame : option nat;
  lastRealTime : option Q;
  pending : list nat;
  frameCount : nat
}.

Definition set_session (ev : list Event) (ld : bool) (er : option string)
  (st : Page) : Page :=
  mkPage ev ld er (playing st) (currentTime st) (playbackSpeed st)
         (animationFrame st) (lastRealTime st) (pending st) (frameCount st).

Definition set_playing (b : bool) (st : Page) : Page :=
  mkPage (events st) (loading st) (error st) b (currentTime st)
         (playbackSpeed st) (animationFrame st) (lastRealTime st)
         (pending st) (frameCount st).

Definition set_currentTime (x : Q) (st : Page) : Page :=
  mkPage (events st) (loading st) (error st) (playing st) x
         (playbackSpeed st) (animationFrame st) (lastRealTime st)
         (pending st) (frameCount st).

Definition set_playbackSpeed (x : Q) (st : Page) : Page :=
  mkPage (events st) (loading st) (error st) (playing st) (currentTime st)
         x (animationFrame st) (lastRealTime st) (pending st) (frameCount st).

Definition set_animationFrame (h : option nat) (st : Page) : Page :=
  mkPage (events st) (loading st) (error st) (playing st) (currentTime st)
         (playbackSpeed st) h (lastRealTime st) (pending st) (frameCount st).

Definition set_lastRealTime (x : option Q) (st : Page) : Page :=
  mkPage (events st) (loading st) (error st) (playing st) (currentTime st)
         (playbackSpeed st) (animationFrame st) x (pending st) (frameCount st).

Definition set_browser (p : list nat) (n : nat) (st : Page) : Page :=
  mkPage (events st) (loading st) (error st) (playing st) (currentTime st)
         (playbackSpeed st) (animationFrame st) (lastRealTime st) p n.

(** The page as created: the initial values of the declarations. *)
Definition initial : Page :=
  mkPage [] true None false 0 1 None None [] 0.

Definition currentAircraft (st : Page) : list Aircraft :=
  state_at (snapshots (events st)) (currentTime st).

(** ** [fetchEvents] *)

(** What the awaited request comes to. *)
Inductive Response :=
| Rejected (message : option string)
    (** [fetch] or [res.json()] throws: an [Error] with its message, or
        some other value *)
| NotOk (statusText : string)
    (** a response with [res.ok] false *)
| NullBody (message : string)
    (** the parsed body is [null]: reading [data.events] throws a
        [TypeError], with the message the engine gives it *)
| Body (data_events : option (list Event)).
    (** a parsed body other than [null] and its [events] property: an
        array, or [None] when the property is absent or falsy *)

(** The assignments before the first [await]. *)
Definition fetch_begin (st : Page) : Page :=
  set_session (events st) true None st.

(** The rest of the function, once the request has settled. *)
Definition fetch_settle (r : Response) (st : Page) : Page :=
  match r with
  | Body data_events =>
      let ev := match data_events with Some l => l | None => [] end in
      set_session ev false (error st) st
  | NotOk statusText =>
      set_session [] false (Some ("Failed to load session: " ++ statusText)%string) st
  | NullBody message =>
      set_session [] false (Some message) st
  | Rejected (Some message) =>
      set_session [] false (Some message) st
  | Rejected None =>
      set_session [] false (Some "Unknown error"%string) st
  end.

Definition fetchEvents (r : Response) (st : Page) : Page :=
  fetch_settle r (fetch_begin st).

(** ** Playback transport *)

(** [requestAnimationFrame(tick)]: the browser issues the next handle and
    queues the callback. *)
Definition requestAnimationFrame (st : Page) : nat * Page :=
  let h := S (frameCount st) in
  (h, set_browser (pending st ++ [h]) h st).

(** [cancelAnimationFrame(h)] *)
Definition cancelAnimationFrame (h : nat) (st : Page) : Page :=
  set_browser (filter (fun h' => negb (Nat.eqb h' h)) (pending st))
              (frameCount st) st.

Definition pause (st : Page) : Page :=
  let st := set_playing false st in
  match animationFrame st with
  | Some (S _ as h) => set_animationFrame None (cancelAnimationFrame h st)
  | _ => st
  end.

(** [tick], with [now] the value that [performance.now()] returns in it
    (milliseconds). *)
Definition tick (now : Q) (st : Page) : Page :=
  if negb (playing st) then st
  else
    let st :=
      match lastRealTime st with
      | Some last =>
          let delta := (now - last) / 1000 in
          let st :=
            set_currentTime
              (Qmin (currentTime st + delta * playbackSpeed st)
                    (maxTime (events st))) st in
          if Qle_bool (maxTime (events st)) (currentTime st)
          then pause st else st
      | None => st
      end in
    let st := set_lastRealTime (Some now) st in
    let (h, st) := requestAnimationFrame st in
    set_animationFrame (Some h) st.

(** [play]; [now] is the clock as [play] reads it and [now'] as the
    [tick] that it calls reads it. *)
Definition play (now now' : Q) (st : Page) : Page :=
  let st := set_playing true st in
  let st := set_lastRealTime (Some now) st in
  tick now' st.

(** The browser runs the callback queued under handle [h], if it is still
    queued. *)
Definition run_frame (h : nat) (now : Q) (st : Page) : Page :=
  if existsb (Nat.eqb h) (pending st)
  then tick now (set_browser (filter (fun h' => negb (Nat.eqb h' h)) (pending st))
                             (frameCount st) st)
  else st.

Definition seek (time : Q) (st : Page) : Page :=
  set_currentTime (Qmax 0 (Qmin time (maxTime (events st)))) st.

(** [handleKeydown] on [e.key]; the two clock readings are those of a
    [play] that the key may start. *)
Definition handleKeydown (key : string) (now now' : Q) (st : Page) : Page :=
  if String.eqb key " " then
    if playing st then pause st else play now now' st
  else if String.eqb key "ArrowLeft" then seek (currentTime st - 5) st
  else if String.eqb key "ArrowRight" then seek (currentTime st + 5) st
  else if String.eqb key "+" || String.eqb key "=" then
    set_playbackSpeed (Qmin (playbackSpeed st * 2) 10) st
  else if String.eqb key "-" then
    set_playbackSpeed (Qmax (playbackSpeed st / 2) (1 # 2)) st
  else st.

(** ** Sample data *)

Definition sample_aircraft (cs : string) (alt hdg : Q) : Aircraft :=
  {| callsign := cs; position := (Some 0, Some 0); altitude := Some alt;
     heading := Some hdg; speed := Some 200; phase := None; extra := [] |}.

Definition sample_snapshot (t : Q) (l : list Aircraft) : Event :=
  {| event_type := Some "state_snapshot"%string; game_time := Some t;
     aircraft := Some l; score := None; aircraft1 := None; aircraft2 := None;
     ev_callsign := None; runway := None |}.

Definition bare_event (kind : option string) (t : num) : Event :=
  {| event_type := kind; game_time := t; aircraft := None; score := None;
     aircraft1 := None; aircraft2 := None; ev_callsign := None;
     runway := None |}.

Definition scenario_before : Event :=
  sample_snapshot 0 [sample_aircraft "AC1" 1000 350].

Definition scenario_after : Event :=
  sample_snapshot 10 [sample_aircraft "AC1" 2000 10].

Definition departing_before : Event :=
  sample_snapshot 0 [sample_aircraft "AC1" 1000 350;
                     sample_aircraft "AC2" 3000 90].

Definition departing_after : Event :=
  sample_snapshot 10 [sample_aircraft "AC3" 5000 180;
                      sample_aircraft "AC1" 2000 10].

Definition sample_log : list Event :=
  [bare_event (Some "ils_clearance"%string) (Some 3);
   bare_event (Some "conflict"%string) (Some 5);
   bare_event (Some "state_snapshot"%string) (Some 4);
   bare_event (Some "conflict"%string) (Some 3);
   bare_event (Some "conflict"%string) (Some 1)].


Definition loaded_page : Page :=
  mkPage [scenario_before; scenario_after] false None false 5 1 None None [] 0.

Definition ending_page : Page :=
  mkPage [sample_snapshot 0 []; bare_event (Some "landing"%string) (Some 1)]
         false None true 0 2 (Some 1%nat) (Some 0) [] 1.

Definition fast_page : Page :=
  mkPage [sample_snapshot 0 []; sample_snapshot 60 []]
         false None true 0 2 (Some 1%nat) (Some 0) [] 1.

(** ** Vocabulary of the properties *)

(** A possibly undefined number is the finite number [q]. *)
Definition num_is (x : num) (q : Q) : Prop :=
  match x with
  | Some a => a == q
  | None => False
  end.

(** The remainder of the mathematical division by [m], with floor. *)
Definition Qmod (x m : Q) : Q := x - m * inject_Z (Qfloor (x / m)).

(** The heading on the shortest path from [a] to [b], in the words of the
    specification: the raw difference, minus 360 when above 180, plus 360
    when below -180; then [(a + d t + 360) mod 360]. *)
Definition shortest_path_heading (a b t : Q) : Q :=
  let d := b - a in
  let d :=
    if Qlt_le_dec 180 d then d - 360
    else if Qlt_le_dec d (-(180)) then d + 360
    else d in
  Qmod (a + d * t + 360) 360.

(** Snapshots in ascending order of [game_time], every one with a
    numeric [game_time]. *)
Definition time_le (a b : Event) : Prop :=
  match game_time a, game_time b with
  | Some x, Some y => x <= y
  | _, _ => False
  end.

Definition numeric_time (e : Event) : Prop := game_time e <> None.

Definition time_sorted (snaps : list Event) : Prop :=
  Forall numeric_time snaps /\ StronglySorted time_le snaps.

(** Markers in ascending order of [time]. *)
Definition marker_le (a b : Marker) : Prop :=
  match time a, time b with
  | Some x, Some y => x <= y
  | _, _ => False
  end.

(** The markers at time [q]. *)
Definition at_time (q : Q) (m : Marker) : bool :=
  match time m with
  | Some x => Qeq_bool x q
  | None => false
  end.



(** The list [out] is the aircraft list of the snapshot [e], taken as it
    is; a snapshot without the field shows no aircraft. *)
Definition shows_list_of (e : Event) (out : list Aircraft) : Prop :=
  match aircraft e with
  | Some l => out = l
  | None => out = []
  end.

(** The snapshots at or before, and at or after, the cursor [t]. *)
Definition at_or_before (t : Q) (r : Ref) : bool := JsNum.le (ref_time r) t.

Definition at_or_after (t : Q) (r : Ref) : bool := JsNum.ge (ref_time r) t.

(** Array slots in ascending order of [game_time]. *)
Definition ref_le (r1 r2 : Ref) : Prop := time_le (snd r1) (snd r2).

(** Markers with a numeric time. *)
Definition numeric_marker (m : Marker) : Prop := time m <> None.

(** The map entry of a record. *)
Definition entry (a : Aircraft) : string * Aircraft := (callsign a, a).

(** ** Further views and handlers of the page *)

(** [array.slice(-n)]: the last [n] elements, all of them when there are
    fewer. *)
Definition slice_last {A} (n : nat) (l : list A) : list A :=
  skipn (List.length l - n) l.

(** The decisions up to the cursor, the twenty latest, newest first. *)
Definition currentDecisions (st : Page) : list Event :=
  rev (slice_last 20
         (filter (fun d => JsNum.le (game_time d) (currentTime st))
                 (decisions (events st)))).

(** [conflicts.filter((c) => c.game_time <= currentTime)], the list of the
    "Conflicts Detected" panel. *)
Definition shownConflicts (st : Page) : list Event :=
  filter (fun c => JsNum.le (game_time c) (currentTime st))
         (conflicts (events st)).

(** The width of the progress bar and the place of the playhead, in per
    cent: [maxTime > 0 ? (currentTime / maxTime) * 100 : 0]. *)
Definition progressPercent (st : Page) : Q :=
  if JsNum.ltb 0 (maxTime (events st))
  then currentTime st / maxTime (events st) * 100
  else 0.

(** The place of a marker on the track, in per cent:
    [maxTime > 0 ? (marker.time / maxTime) * 100 : 0]. *)
Definition markerPercent (st : Page) (m : Marker) : num :=
  if JsNum.ltb 0 (maxTime (events st))
  then JsNum.mul (JsNum.div (time m) (Some (maxTime (events st)))) (Some 100)
  else Some 0.

(** [handleTimelineClick], on [x = e.clientX - rect.left] and
    [width = rect.width].  With a zero width [percent] is an infinity or
    NaN, which the cursor of the model cannot hold: the result is then
    [None]. *)
Definition handleTimelineClick (x width : Q) (st : Page) : option Page :=
  if Qeq_bool width 0 then None
  else
    let percent := x / width in
    Some (seek (percent * maxTime (events st)) st).

(** The [onkeydown] of the timeline itself, which runs when the timeline
    has the focus. *)
Definition timelineKeydown (key : string) (st : Page) : Page :=
  let st :=
    if String.eqb key "ArrowLeft" then seek (currentTime st - 5) st else st in
  if String.eqb key "ArrowRight" then seek (currentTime st + 5) st else st.

(** A key pressed while the timeline has the focus: the timeline's
    handler runs, then the window's listener as the event bubbles. *)
Definition focusedKeydown (key : string) (now now' : Q) (st : Page) : Page :=
  handleKeydown key now now' (timelineKeydown key st).

(** The handler of the play button: [playing ? pause() : play()]. *)
Definition togglePlay (now now' : Q) (st : Page) : Page :=
  if playing st then pause st else play now now' st.

(** The values of the speed [<select>]. *)
Inductive SpeedOption := Half | Normal | Double | Five | Ten.

Definition speed_value (o : SpeedOption) : Q :=
  match o with
  | Half => 1 # 2
  | Normal => 1
  | Double => 2
  | Five => 5
  | Ten => 10
  end.

(** [bind:value={playbackSpeed}] *)
Definition selectSpeed (o : SpeedOption) (st : Page) : Page :=
  set_playbackSpeed (speed_value o) st.

(** [onDestroy] *)
Definition onDestroy (st : Page) : Page := pause st.

(** What the user and the browser can do to a loaded page. *)
Inductive Action :=
| KeyDown (key : string) (now now' : Q)
| PlayButton (now now' : Q)
| TrackClick (x width : Q)
| SelectSpeed (o : SpeedOption)
| Frame (h : nat) (now : Q)
| Destroy
| TimelineKeyDown (key : string) (now now' : Q).

Definition perform (a : Action) (st : Page) : Page :=
  match a with
  | KeyDown key now now' => handleKeydown key now now' st
  | PlayButton now now' => togglePlay now now' st
  | TrackClick x width =>
      match handleTimelineClick x width st with
      | Some st' => st'
      | None => st
      end
  | SelectSpeed o => selectSpeed o st
  | Frame h now => run_frame h now st
  | Destroy => onDestroy st
  | TimelineKeyDown key now now' => focusedKeydown key now now' st
  end.

(** The clock readings of an action are in order and not before the last
    tick recorded, and a click is on a track that has a width. *)
Definition not_before (st : Page) (now : Q) : Prop :=
  match lastRealTime st with
  | Some last => last <= now
  | None => True
  end.

Definition timely (a : Action) (st : Page) : Prop :=
  match a with
  | KeyDown _ now now' => now <= now' /\ not_before st now
  | PlayButton now now' => now <= now' /\ not_before st now
  | TrackClick _ width => 0 < width
  | Frame _ now => not_before st now
  | SelectSpeed _ => True
  | Destroy => True
  | TimelineKeyDown _ now now' => now <= now' /\ not_before st now
  end.

(** The cursor is on the timeline and the speed is one the controls can
    set. *)
Definition in_range (st : Page) : Prop :=
  0 <= currentTime st <= maxTime (events st)
  /\ 1 # 2 <= playbackSpeed st <= 10.

(** A sequence of actions, first to last, and the condition that each is
    timely in the state it meets. *)
Fixpoint run (acts : list Action) (st : Page) : Page :=
  match acts with
  | [] => st
  | a :: rest => run rest (perform a st)
  end.

Fixpoint timely_trace (acts : list Action) (st : Page) : Prop :=
  match acts with
  | [] => True
  | a :: rest => timely a st /\ timely_trace rest (perform a st)
  end.

(** At most one frame is pending, and it is the one recorded in
    [animationFrame]. *)
Definition one_frame (st : Page) : Prop :=
  pending st = []
  \/ exists h, h <> 0%nat /\ animationFrame st = Some h /\ pending st = [h].

(** The action calls [play]. *)
Definition starts_play (a : Action) (st : Page) : bool :=
  match a with
  | KeyDown key _ _ => String.eqb key " " && negb (playing st)
  | PlayButton _ _ => negb (playing st)
  | TimelineKeyDown key _ _ => String.eqb key " " && negb (playing st)
  | _ => false
  end.


(** ** [formatTime] *)

(** [Math.floor] *)
Definition js_floor (x : num) : option Z := option_map Qfloor x.

(** The text of an integer number: all its digits.  The language prints
    so the integers that a double holds exactly, those below [2^53] in
    size; NaN prints as its name. *)
Definition show_int (z : Z) : string :=
  DecimalString.NilZero.string_of_int (Z.to_int z).

Definition show_number (z : option Z) : string :=
  match z with
  | Some n => show_int n
  | None => "NaN"
  end.

(** [s.padStart(2, '0')] *)
Definition padStart2 (s : string) : string :=
  match String.length s with
  | 0%nat => "00"
  | 1%nat => "0" ++ s
  | _ => s
  end.

Definition formatTime (seconds : num) : string :=
  let mins := js_floor (JsNum.div seconds (Some 60)) in
  let secs := js_floor (JsNum.rem seconds 60) in
  (show_number mins ++ ":" ++ padStart2 (show_number secs))%string.

(** The integer that a text of digits stands for. *)
Definition read_int (s : string) : option Z :=
  option_map Z.of_int (DecimalString.NilZero.int_of_string s).

(** The times for which the model of [formatTime] stands: not negative
    and below [2^53] seconds, where the whole seconds and minutes are
    integers that a double holds exactly. *)
Definition printable (s : Q) : Prop :=
  0 <= s < 9007199254740992.

(** ** Numbers *)

Lemma trunc_nonneg_floor (x : Q) : 0 <= x -> JsNum.trunc x = Qfloor x.
Proof.
  destruct x as [n d]. unfold Qle, JsNum.trunc, Qfloor. simpl. intros H.
  apply Z.quot_div_nonneg; lia.
Qed.

Lemma Qmod_range (x m : Q) : 0 < m -> 0 <= Qmod x m < m.
Proof.
  intros Hm. unfold Qmod.
  pose proof (Qfloor_le (x / m)) as Hlo.
  pose proof (Qlt_floor (x / m)) as Hhi.
  rewrite inject_Z_plus in Hhi. change (inject_Z 1) with 1 in Hhi.
  set (k := inject_Z (Qfloor (x / m))) in *.
  assert (Hx' : x == m * (x / m)) by (field; lra).
  split.
  - assert (m * k <= m * (x / m)) by (apply Qmult_le_l; assumption).
    lra.
  - assert (m * (x / m) < m * (k + 1)) by (apply Qmult_lt_l; assumption).
    lra.
Qed.

Lemma rem_nonneg_Qmod (x m : Q) :
  0 <= x -> 0 < m -> JsNum.rem (Some x) m = Some (Qmod x m).
Proof.
  intros Hx Hm. unfold JsNum.rem, Qmod.
  assert (Hq : 0 <= x / m).
  { apply Qle_shift_div_l; [exact Hm | lra]. }
  now rewrite (trunc_nonneg_floor _ Hq).
Qed.

Lemma ltb_iff (x y : Q) : JsNum.ltb x y = true <-> x < y.
Proof.
  unfold JsNum.ltb. rewrite negb_true_iff. split.
  - intros H. apply Qnot_le_lt. intros Hle.
    apply Qle_bool_iff in Hle. congruence.
  - intros H. destruct (Qle_bool y x) eqn:E; [|reflexivity].
    apply Qle_bool_iff in E. lra.
Qed.

Lemma ltb_false_iff (x y : Q) : JsNum.ltb x y = false <-> y <= x.
Proof.
  unfold JsNum.ltb. rewrite negb_false_iff. apply Qle_bool_iff.
Qed.

(** ** Heading interpolation *)

Lemma shortest_delta_range (a b : Q) :
  0 <= a < 360 -> 0 <= b < 360 ->
  let d := b - a in
  let d := if Qlt_le_dec 180 d then d - 360
           else if Qlt_le_dec d (-(180)) then d + 360 else d in
  -(180) <= d <= 180.
Proof.
  intros Ha Hb. cbv zeta.
  destruct (Qlt_le_dec 180 (b - a)); [lra|].
  destruct (Qlt_le_dec (b - a) (-(180))); lra.
Qed.

Lemma interpolateAngle_finite (a b t : Q) :
  0 <= a < 360 -> 0 <= b < 360 -> 0 <= t <= 1 ->
  interpolateAngle (Some a) (Some b) (Some t)
  = Some (shortest_path_heading a b t).
Proof.
  intros Ha Hb Ht.
  pose proof (shortest_delta_range a b Ha Hb) as Hd. cbv zeta in Hd.
  unfold interpolateAngle, shortest_path_heading.
  cbn [JsNum.sub JsNum.lift2 JsNum.gt].
  destruct (Qlt_le_dec 180 (b - a)) as [Hgt | Hle].
  - rewrite (proj2 (ltb_iff _ _) Hgt).
    cbn [JsNum.sub JsNum.lift2 JsNum.lt].
    assert (Hlo : JsNum.ltb (b - a - 360) (-(180)) = false)
      by (apply ltb_false_iff; lra).
    rewrite Hlo. cbn [JsNum.add JsNum.mul JsNum.lift2].
    apply rem_nonneg_Qmod; [nra | lra].
  - rewrite (proj2 (ltb_false_iff _ _) Hle). cbn [JsNum.lt].
    destruct (Qlt_le_dec (b - a) (-(180))) as [Hlt | Hge].
    + rewrite (proj2 (ltb_iff _ _) Hlt).
      cbn [JsNum.add JsNum.mul JsNum.lift2].
      apply rem_nonneg_Qmod; [nra | lra].
    + rewrite (proj2 (ltb_false_iff _ _) Hge).
      cbn [JsNum.add JsNum.mul JsNum.lift2].
      apply rem_nonneg_Qmod; [nra | lra].
Qed.

(** C3.  For headings [a], [b] in [[0,360)] and a fraction [t] in [[0,1]],
    [interpolateAngle] returns the finite number [(a + d t + 360) mod 360],
    with [d = b - a] brought to the shortest path (minus 360 above 180,
    plus 360 below -180), and that number lies in [[0,360)].
    [interpolateAngle(350, 10, 0.5)] is 0.  With a snapshot at time 0
    (AC1 at altitude 1000, heading 350) and one at time 10 (altitude 2000,
    heading 10), the state at time 5 is AC1 at altitude 1500, heading 0. *)
Theorem interpolateAngle_shortest_path :
  (forall a b t : Q,
     0 <= a < 360 -> 0 <= b < 360 -> 0 <= t <= 1 ->
     interpolateAngle (Some a) (Some b) (Some t)
     = Some (shortest_path_heading a b t)
     /\ 0 <= shortest_path_heading a b t < 360)
  /\ num_is (interpolateAngle (Some 350) (Some 10) (Some (1 # 2))) 0
  /\ exists ac,
       state_at [scenario_before; scenario_after] 5 = [ac]
       /\ callsign ac = "AC1"%string
       /\ num_is (altitude ac) 1500
       /\ num_is (heading ac) 0.
Proof.
  split; [|split].
  - intros a b t Ha Hb Ht. split.
    + now apply interpolateAngle_finite.
    + unfold shortest_path_heading. apply Qmod_range. lra.
  - vm_compute. reflexivity.
  - eexists. split; [vm_compute; reflexivity|].
    repeat split; vm_compute; reflexivity.
Qed.

Lemma interpolateAngle_shortest_path_witness :
  interpolateAngle (Some 350) (Some 10) (Some (1 # 2))
  = Some (shortest_path_heading 350 10 (1 # 2))
  /\ 0 <= shortest_path_heading 350 10 (1 # 2) < 360.
Proof.
  apply (proj1 interpolateAngle_shortest_path 350 10 (1 # 2));
    split; vm_compute; congruence.
Defined.

(** ** The bracketing loop *)

Section Bracketing.

Variable t : Q.

Lemma ge_not_lt (x : num) : JsNum.ge x t = true -> JsNum.lt x t = false.
Proof.
  destruct x as [a|]; simpl; [|reflexivity].
  intros H. apply ltb_false_iff. now apply Qle_bool_iff.
Qed.

(** [before] is the initial value or an element of the array. *)
Lemma loop_before_in (l : list Ref) (b a : Ref) :
  fst (bracket_loop t l b a) = b \/ In (fst (bracket_loop t l b a)) l.
Proof.
  revert b a. induction l as [|s l IH]; intros b a; simpl.
  - now left.
  - match goal with |- context [bracket_loop t l ?b' ?a'] =>
      destruct (IH b' a') as [E | E]
    end.
    + rewrite E. destruct (JsNum.le (ref_time s) t); auto.
    + auto.
Qed.

(** [before] ends as the last element at or before the cursor. *)
Lemma loop_before_last (l1 l2 : list Ref) (s b a : Ref) :
  at_or_before t s = true ->
  Forall (fun r => at_or_before t r = false) l2 ->
  fst (bracket_loop t (l1 ++ s :: l2) b a) = s.
Proof.
  intros Hs Hl2. revert b a.
  induction l1 as [|x l1 IH]; intros b a.
  - simpl. fold (at_or_before t s). rewrite Hs. clear Hs.
    generalize (if JsNum.ge (ref_time s) t && JsNum.lt (ref_time a) t
                then s else a).
    induction Hl2 as [|y l2 Hy _ IH2]; intros a'; simpl; [reflexivity|].
    fold (at_or_before t y). rewrite Hy. apply IH2.
  - simpl. apply IH.
Qed.

(** [before] keeps its initial value when no element qualifies. *)
Lemma loop_before_default (l : list Ref) (b a : Ref) :
  Forall (fun r => at_or_before t r = false) l ->
  fst (bracket_loop t l b a) = b.
Proof.
  intros H. revert a. induction H as [|y l Hy _ IH]; intros a; simpl.
  - reflexivity.
  - fold (at_or_before t y). rewrite Hy. apply IH.
Qed.

(** [after] moves once, and only from an initial value before the
    cursor: to the first element at or after the cursor. *)
Lemma loop_after_find (l : list Ref) (b a : Ref) :
  snd (bracket_loop t l b a)
  = if JsNum.lt (ref_time a) t
    then match find (at_or_after t) l with Some s => s | None => a end
    else a.
Proof.
  revert b a. induction l as [|s l IH]; intros b a; simpl.
  - now destruct (JsNum.lt (ref_time a) t).
  - rewrite IH. fold (at_or_after t s).
    destruct (JsNum.lt (ref_time a) t) eqn:Ea.
    + destruct (at_or_after t s) eqn:Es; simpl.
      * unfold at_or_after in Es. now rewrite (ge_not_lt _ Es).
      * now rewrite Ea.
    + rewrite andb_false_r. now rewrite Ea.
Qed.

End Bracketing.

(** ** Sorted snapshot arrays *)

Lemma combine_sorted (ns : list nat) (l : list Event) :
  StronglySorted time_le l -> StronglySorted ref_le (combine ns l).
Proof.
  intros H. revert ns. induction H as [|x l Hl IH Hx]; intros ns.
  - destruct ns; constructor.
  - destruct ns as [|n ns]; simpl; constructor.
    + apply IH.
    + apply Forall_forall. intros [m y] Hin.
      apply in_combine_r in Hin.
      unfold ref_le. simpl. revert y Hin. now apply Forall_forall.
Qed.

Lemma combine_numeric (ns : list nat) (l : list Event) :
  Forall numeric_time l ->
  Forall (fun r => ref_time r <> None) (combine ns l).
Proof.
  intros H. apply Forall_forall. intros [m y] Hin.
  apply in_combine_r in Hin. unfold ref_time. simpl.
  revert y Hin. now apply Forall_forall.
Qed.

Lemma find_first (p : Ref -> bool) (l : list Ref) (b : Ref) :
  StronglySorted ref_le l -> In b l -> p b = true ->
  exists f, find p l = Some f /\ p f = true /\ (f = b \/ ref_le f b).
Proof.
  intros Hs. induction Hs as [|x l Hl IH Hx]; intros Hin Hp.
  - destruct Hin.
  - simpl. destruct (p x) eqn:Ex.
    + exists x. repeat split; trivial.
      destruct Hin as [E | Hin]; [now left | right].
      revert Hin. generalize b. now apply Forall_forall.
    + destruct Hin as [E | Hin]; [congruence|]. now apply IH.
Qed.

Lemma num_is_strict_eq (x y : num) (q : Q) :
  num_is x q -> num_is y q -> JsNum.strict_eq x y = true.
Proof.
  destruct x as [a|], y as [b|]; simpl; try tauto.
  intros Ha Hb. apply Qeq_bool_iff. now rewrite Ha, Hb.
Qed.

Lemma bracket_some (snaps : list Event) (t : Q) (before after : Ref) :
  bracket snaps t = Some (before, after) ->
  exists s0 rest,
    indexed snaps = s0 :: rest
    /\ bracket_loop t (s0 :: rest) s0 s0 = (before, after).
Proof.
  unfold bracket. destruct (indexed snaps) as [|s0 rest]; [discriminate|].
  intros H. exists s0, rest. split; [reflexivity|].
  injection H as H. exact H.
Qed.

(** On a sorted array, a [before] at the cursor's time has an [after] at
    the same time. *)
Lemma exact_time_same_time (snaps : list Event) (t : Q) (before after : Ref) :
  time_sorted snaps ->
  bracket snaps t = Some (before, after) ->
  num_is (ref_time before) t ->
  JsNum.strict_eq (ref_time before) (ref_time after) = true.
Proof.
  intros [Hnum Hsort] Hb Hbt.
  pose proof (combine_sorted (seq 0 (List.length snaps)) snaps Hsort) as Hs.
  pose proof (combine_numeric (seq 0 (List.length snaps)) snaps Hnum) as Hn.
  fold (indexed snaps) in Hs, Hn.
  destruct (bracket_some _ _ _ _ Hb) as (s0 & rest & E & Hl).
  rewrite E in Hs, Hn. clear Hb E. rename Hl into Hb.
  assert (Hin : In before (s0 :: rest)).
  { destruct (loop_before_in t (s0 :: rest) s0 s0) as [E | E];
      rewrite Hb in E; simpl in E; [left; now symmetry | exact E]. }
  pose proof (loop_after_find t (s0 :: rest) s0 s0) as Ha.
  rewrite Hb in Ha. cbn [snd] in Ha.
  apply num_is_strict_eq with (q := t); [exact Hbt|].
  assert (Hge : JsNum.ge (ref_time before) t = true).
  { destruct (ref_time before) as [x|]; simpl in *; [|tauto].
    apply Qle_bool_iff. lra. }
  destruct (find_first (at_or_after t) _ before Hs Hin Hge)
    as (f & Hf & Hfge & Hfb).
  assert (Hft : num_is (ref_time f) t).
  { destruct Hfb as [-> | Hle]; [exact Hbt|].
    unfold ref_le, time_le in Hle. unfold at_or_after, ref_time in *.
    destruct (game_time (snd f)) as [xf|]; [|tauto].
    destruct (game_time (snd before)) as [xb|]; [|tauto].
    simpl in *. apply Qle_bool_iff in Hfge. lra. }
  destruct (JsNum.lt (ref_time s0) t) eqn:E0.
  - rewrite Hf in Ha. now subst after.
  - subst after.
    inversion Hs as [|? ? _ H0]; subst.
    inversion Hn as [|? ? Hn0 _]; subst.
    destruct (ref_time s0) as [x0|] eqn:Ex0; [|congruence].
    simpl in E0 |- *. apply ltb_false_iff in E0.
    destruct Hin as [<- | Hin].
    + rewrite Ex0 in Hbt. exact Hbt.
    + assert (Hle : ref_le s0 before).
      { revert Hin. generalize before. now apply Forall_forall. }
      unfold ref_le, time_le in Hle. unfold ref_time in *.
      rewrite Ex0 in Hle.
      destruct (game_time (snd before)) as [xb|]; [|tauto].
      simpl in Hbt. lra.
Qed.

Lemma no_interpolation_returns_before (snaps : list Event) (t : Q)
  (before after : Ref) :
  bracket snaps t = Some (before, after) ->
  no_interpolation before after = true ->
  state_at snaps t = aircraft_or_empty (snd before).
Proof.
  intros Hb Hn. unfold state_at. now rewrite Hb, Hn.
Qed.

Lemma combine_seq_app (n : nat) (l1 l2 : list Event) (s : Event) :
  combine (seq n (List.length (l1 ++ s :: l2))) (l1 ++ s :: l2)
  = combine (seq n (List.length l1)) l1
    ++ ((n + List.length l1)%nat, s)
    :: combine (seq (S (n + List.length l1)) (List.length l2)) l2.
Proof.
  revert n. induction l1 as [|x l1 IH]; intros n; simpl.
  - now rewrite Nat.add_0_r.
  - rewrite IH. now rewrite Nat.add_succ_r.
Qed.

Lemma sorted_after (l1 l2 : list Event) (s : Event) :
  StronglySorted time_le (l1 ++ s :: l2) -> Forall (time_le s) l2.
Proof.
  induction l1 as [|x l1 IH]; simpl; intros H; inversion H; subst; auto.
Qed.

Lemma bracket_before_last (snaps : list Event) (t : Q)
  (r1 r2 : list Ref) (r : Ref) :
  indexed snaps = r1 ++ r :: r2 ->
  JsNum.le (ref_time r) t = true ->
  Forall (fun r' => JsNum.le (ref_time r') t = false) r2 ->
  exists after, bracket snaps t = Some (r, after).
Proof.
  intros E Hr H2. unfold bracket. rewrite E.
  assert (Hgen : forall x,
             bracket_loop t (r1 ++ r :: r2) x x
             = (r, snd (bracket_loop t (r1 ++ r :: r2) x x))).
  { intros x.
    rewrite (surjective_pairing (bracket_loop t _ x x)) at 1. f_equal.
    now apply loop_before_last. }
  destruct r1 as [|s0 r1'].
  - exists (snd (bracket_loop t ([] ++ r :: r2) r r)).
    change (Some (bracket_loop t ([] ++ r :: r2) r r)
            = Some (r, snd (bracket_loop t ([] ++ r :: r2) r r))).
    f_equal. apply Hgen.
  - exists (snd (bracket_loop t ((s0 :: r1') ++ r :: r2) s0 s0)).
    change (Some (bracket_loop t ((s0 :: r1') ++ r :: r2) s0 s0)
            = Some (r, snd (bracket_loop t ((s0 :: r1') ++ r :: r2) s0 s0))).
    f_equal. apply Hgen.
Qed.

(** A snapshot that is the last one with its [game_time] is the [before]
    of a cursor at that time. *)
Lemma last_at_time_is_before (l1 l2 : list Event) (s : Event) (g : Q) :
  time_sorted (l1 ++ s :: l2) ->
  game_time s = Some g ->
  Forall (fun s' => ~ num_is (game_time s') g) l2 ->
  exists after,
    bracket (l1 ++ s :: l2) g = Some ((List.length l1, s), after).
Proof.
  intros [Hnum Hsort] Hg Hlast.
  apply bracket_before_last
    with (r1 := combine (seq 0 (List.length l1)) l1)
         (r2 := combine (seq (S (List.length l1)) (List.length l2)) l2).
  - unfold indexed. now rewrite combine_seq_app.
  - unfold ref_time. simpl. rewrite Hg. simpl. apply Qle_bool_iff. lra.
  - apply Forall_forall. intros [m y] Hin. apply in_combine_r in Hin.
    unfold ref_time. simpl.
    pose proof (sorted_after _ _ _ Hsort) as Hle.
    rewrite Forall_forall in Hle, Hlast.
    specialize (Hle y Hin). specialize (Hlast y Hin).
    unfold time_le in Hle. rewrite Hg in Hle.
    destruct (game_time y) as [x|]; [|reflexivity]. simpl in *.
    destruct (Qle_bool x g) eqn:E; [|reflexivity].
    apply Qle_bool_iff in E. exfalso. apply Hlast. lra.
Qed.

Lemma aircraft_or_empty_shows (e : Event) :
  shows_list_of e (aircraft_or_empty e).
Proof.
  unfold shows_list_of, aircraft_or_empty. now destruct (aircraft e).
Qed.

(** C5.  On a time-sorted snapshot sequence: when the snapshot chosen as
    [before] has the cursor's [game_time], [state_at] returns the aircraft
    list of that snapshot as it is (no aircraft when the snapshot has no
    list); more generally so whenever [before] and [after] are the same
    snapshot, or either has no aircraft list, or their [game_time]s are
    equal; and every snapshot that is the last one with its [game_time]
    is the one chosen at that time, so that [state_at] at its
    [game_time] returns its aircraft list. *)
Theorem exact_match_returns_before (snaps : list Event) :
  time_sorted snaps ->
  (forall t before after,
     bracket snaps t = Some (before, after) ->
     num_is (ref_time before) t ->
     shows_list_of (snd before) (state_at snaps t))
  /\ (forall t before after,
        bracket snaps t = Some (before, after) ->
        fst before = fst after
        \/ aircraft (snd before) = None
        \/ aircraft (snd after) = None
        \/ JsNum.strict_eq (ref_time before) (ref_time after) = true ->
        shows_list_of (snd before) (state_at snaps t))
  /\ (forall l1 s l2 g,
        snaps = l1 ++ s :: l2 ->
        game_time s = Some g ->
        Forall (fun s' => ~ num_is (game_time s') g) l2 ->
        shows_list_of s (state_at snaps g))
  /\ (forall l1 s l2 g l,
        snaps = l1 ++ s :: l2 ->
        game_time s = Some g ->
        aircraft s = Some l ->
        Forall (fun s' => ~ num_is (game_time s') g) l2 ->
        state_at snaps g = l).
Proof.
  intros Hsorted.
  assert (Hexact : forall t before after,
             bracket snaps t = Some (before, after) ->
             num_is (ref_time before) t ->
             shows_list_of (snd before) (state_at snaps t)).
  { intros t before after Hb Ht.
    rewrite (no_interpolation_returns_before _ _ _ _ Hb).
    - apply aircraft_or_empty_shows.
    - unfold no_interpolation.
      rewrite (exact_time_same_time _ _ _ _ Hsorted Hb Ht).
      now rewrite !orb_true_r. }
  assert (Hlast : forall l1 s l2 g,
             snaps = l1 ++ s :: l2 ->
             game_time s = Some g ->
             Forall (fun s' => ~ num_is (game_time s') g) l2 ->
             shows_list_of s (state_at snaps g)).
  { intros l1 s l2 g E Hg Hl. subst snaps.
    destruct (last_at_time_is_before _ _ _ _ Hsorted Hg Hl) as [after Hb].
    apply (Hexact _ _ _ Hb). unfold ref_time. simpl. rewrite Hg. simpl. lra. }
  split; [exact Hexact|]. split; [|split; [exact Hlast|]].
  - intros t before after Hb Hcase.
    rewrite (no_interpolation_returns_before _ _ _ _ Hb).
    + apply aircraft_or_empty_shows.
    + unfold no_interpolation.
      destruct Hcase as [E | [E | [E | E]]].
      * rewrite E, Nat.eqb_refl. reflexivity.
      * rewrite E. simpl. now rewrite orb_true_r.
      * rewrite E. simpl. now rewrite !orb_true_r.
      * rewrite E. now rewrite !orb_true_r.
  - intros l1 s l2 g l E Hg Hair Hl.
    pose proof (Hlast l1 s l2 g E Hg Hl) as H.
    unfold shows_list_of in H. now rewrite Hair in H.
Qed.

Lemma scenario_sorted : time_sorted [scenario_before; scenario_after].
Proof.
  split.
  - repeat constructor; discriminate.
  - repeat constructor. unfold time_le. simpl. lra.
Qed.

Lemma exact_match_returns_before_witness :
  time_sorted [scenario_before; scenario_after]
  /\ state_at [scenario_before; scenario_after] 10
     = [sample_aircraft "AC1" 2000 10].
Proof.
  split; [exact scenario_sorted|].
  apply (proj2 (proj2 (proj2 (exact_match_returns_before
                                [scenario_before; scenario_after]
                                scenario_sorted)))
           [scenario_before] scenario_after [] 10).
  - reflexivity.
  - reflexivity.
  - reflexivity.
  - constructor.
Defined.

(** ** A cursor past the last snapshot *)

(** When no snapshot is at or after the cursor, [after] keeps its initial
    value, the first snapshot. *)
Lemma late_cursor_after_is_first (snaps : list Event) (t : Q)
  (before after : Ref) :
  bracket snaps t = Some (before, after) ->
  Forall (fun s => JsNum.ge (game_time s) t = false) snaps ->
  fst after = 0%nat.
Proof.
  intros Hb Hlate.
  destruct (bracket_some _ _ _ _ Hb) as (s0 & rest & E & Hl).
  assert (H0 : fst s0 = 0%nat).
  { unfold indexed in E. destruct snaps; simpl in E; [discriminate|].
    injection E as <- _. reflexivity. }
  pose proof (loop_after_find t (s0 :: rest) s0 s0) as Ha.
  rewrite Hl in Ha. cbn [snd] in Ha.
  assert (Hnone : find (at_or_after t) (s0 :: rest) = None).
  { destruct (find _ (s0 :: rest)) as [f|] eqn:Ef; [|reflexivity].
    apply find_some in Ef. destruct Ef as [Hin Hge].
    rewrite <- E in Hin. destruct f as [m y].
    apply in_combine_r in Hin. rewrite Forall_forall in Hlate.
    specialize (Hlate y Hin). unfold at_or_after, ref_time in Hge.
    simpl in Hge. congruence. }
  rewrite Hnone in Ha. destruct (JsNum.lt (ref_time s0) t); now subst after.
Qed.

(** C1, evaluated on the code.  Snapshots at times 0 and 10, cursor at 15:
    [before] is the last snapshot and [after] is the first one, and the
    result is not the last snapshot's aircraft list but an extrapolation
    backwards from it, at altitude 2500 and heading 20 instead of 2000
    and 10. *)
Theorem late_cursor_extrapolates :
  time_sorted [scenario_before; scenario_after]
  /\ (exists before after,
        bracket [scenario_before; scenario_after] 15 = Some (before, after)
        /\ before = (1%nat, scenario_after)
        /\ after = (0%nat, scenario_before))
  /\ (exists ac,
        state_at [scenario_before; scenario_after] 15 = [ac]
        /\ num_is (altitude ac) 2500 /\ num_is (heading ac) 20)
  /\ aircraft_or_empty scenario_after = [sample_aircraft "AC1" 2000 10].
Proof.
  split; [exact scenario_sorted|].
  split; [|split].
  - do 2 eexists. split; [vm_compute; reflexivity|]. split; reflexivity.
  - eexists. split; [vm_compute; reflexivity|].
    split; vm_compute; reflexivity.
  - reflexivity.
Qed.

(** ** The callsign maps *)

Lemma set_fresh {V} (k : string) (v : V) (m : JsMap.t V) :
  ~ In k (map fst m) -> JsMap.set k v m = m ++ [(k, v)].
Proof.
  induction m as [|[k' v'] m IH]; simpl; intros H; [reflexivity|].
  destruct (String.eqb_spec k k') as [-> | Hne].
  - exfalso. apply H. now left.
  - rewrite IH; [reflexivity|]. intros Hin. apply H. now right.
Qed.

Lemma fold_set_fresh {V} (es : list (string * V)) (m : JsMap.t V) :
  NoDup (map fst es) ->
  (forall k, In k (map fst es) -> ~ In k (map fst m)) ->
  fold_left (fun m e => JsMap.set (fst e) (snd e) m) es m = m ++ es.
Proof.
  revert m. induction es as [|[k v] es IH]; intros m Hnd Hdis; simpl.
  - now rewrite app_nil_r.
  - simpl in Hnd. inversion Hnd as [|? ? Hk Hnd']; subst.
    rewrite set_fresh by (apply Hdis; now left).
    rewrite IH; [now rewrite <- app_assoc| exact Hnd' |].
    intros k' Hin. rewrite map_app, in_app_iff. simpl.
    intros [H | [H | []]].
    + apply (Hdis k'); [now right | exact H].
    + subst k'. contradiction.
Qed.

Lemma callsign_map_nodup (l : list Aircraft) :
  NoDup (map callsign l) -> callsign_map l = map entry l.
Proof.
  intros H. unfold callsign_map, JsMap.of_entries.
  change (fun a => (callsign a, a)) with entry.
  rewrite fold_set_fresh; [reflexivity | | intros k _ []].
  rewrite map_map. exact H.
Qed.

Lemma set_in {V} (k : string) (v : V) (m : JsMap.t V) (e : string * V) :
  In e (JsMap.set k v m) -> In e m \/ e = (k, v).
Proof.
  induction m as [|[k' v'] m IH]; simpl.
  - intros [<- | []]. now right.
  - destruct (String.eqb_spec k k') as [-> | Hne]; simpl.
    + intros [<- | H]; [now right | left; now right].
    + intros [<- | H]; [left; now left|].
      destruct (IH H) as [H' | H']; [left; now right | now right].
Qed.

Lemma fold_set_in {V} (es : list (string * V)) (m : JsMap.t V)
  (e : string * V) :
  In e (fold_left (fun m e => JsMap.set (fst e) (snd e) m) es m) ->
  In e m \/ In e es.
Proof.
  revert m. induction es as [|[k v] es IH]; intros m; simpl; [now left|].
  intros H. destruct (IH _ H) as [H' | H']; [|right; now right].
  destruct (set_in _ _ _ _ H') as [H'' | ->]; [now left | right; now left].
Qed.

(** Every entry of a callsign map is a record of the list, under its own
    callsign. *)
Lemma callsign_map_in (l : list Aircraft) (e : string * Aircraft) :
  In e (callsign_map l) -> In (snd e) l /\ fst e = callsign (snd e).
Proof.
  intros H. apply fold_set_in in H. destruct H as [[] | H].
  apply in_map_iff in H. destruct H as (a & <- & Ha). now split.
Qed.

Lemma get_none {V} (k : string) (m : JsMap.t V) :
  ~ In k (map fst m) -> JsMap.get k m = None.
Proof.
  induction m as [|[k' v'] m IH]; simpl; intros H; [reflexivity|].
  destruct (String.eqb_spec k k') as [-> | Hne].
  - exfalso. apply H. now left.
  - apply IH. intros Hin. apply H. now right.
Qed.

(** ** Interpolation between two snapshots *)

Lemma interpolating_case (snaps : list Event) (t : Q) (before after : Ref) :
  bracket snaps t = Some (before, after) ->
  no_interpolation before after = false ->
  state_at snaps t
  = interpolate (aircraft_or_empty (snd before))
                (aircraft_or_empty (snd after))
                (fraction t before after).
Proof.
  intros Hb Hn. unfold state_at. now rewrite Hb, Hn.
Qed.

Lemma interpolate_entry_frame (m : JsMap.t Aircraft) (t : num)
  (e : string * Aircraft) :
  let out := interpolate_entry m t e in
  callsign out = callsign (snd e)
  /\ phase out = phase (snd e)
  /\ extra out = extra (snd e).
Proof.
  unfold interpolate_entry. destruct (JsMap.get (fst e) m); simpl; auto.
Qed.

Lemma interpolate_entry_absent (m : JsMap.t Aircraft) (t : num)
  (e : string * Aircraft) :
  JsMap.get (fst e) m = None -> interpolate_entry m t e = snd e.
Proof.
  unfold interpolate_entry. now intros ->.
Qed.

Lemma no_interpolation_false (before after : Ref) (bl al : list Aircraft) :
  fst before <> fst after ->
  aircraft (snd before) = Some bl ->
  aircraft (snd after) = Some al ->
  JsNum.strict_eq (ref_time before) (ref_time after) = false ->
  no_interpolation before after = false.
Proof.
  intros Hid Hb Ha Ht. unfold no_interpolation.
  rewrite Hb, Ha, Ht. simpl.
  apply Nat.eqb_neq in Hid. now rewrite Hid.
Qed.

(** C4.  In the interpolating case (two distinct bracketing snapshots with
    distinct [game_time]s, each with an aircraft list whose callsigns are
    unique), the output has the callsigns of [before]'s list, in the same
    order and number; a record of [before] whose callsign is not in
    [after] is in the output unchanged; and a callsign that is only in
    [after] is not in the output. *)
Theorem departed_aircraft_kept (snaps : list Event) (t : Q)
  (before after : Ref) (bl al : list Aircraft) :
  bracket snaps t = Some (before, after) ->
  fst before <> fst after ->
  aircraft (snd before) = Some bl ->
  aircraft (snd after) = Some al ->
  JsNum.strict_eq (ref_time before) (ref_time after) = false ->
  NoDup (map callsign bl) ->
  NoDup (map callsign al) ->
  map callsign (state_at snaps t) = map callsign bl
  /\ (forall ac,
        In ac bl -> ~ In (callsign ac) (map callsign al) ->
        In ac (state_at snaps t))
  /\ (forall c,
        In c (map callsign al) -> ~ In c (map callsign bl) ->
        ~ In c (map callsign (state_at snaps t))).
Proof.
  intros Hb Hid Hbl Hal Ht Hndb Hnda.
  rewrite (interpolating_case _ _ _ _ Hb
             (no_interpolation_false _ _ _ _ Hid Hbl Hal Ht)).
  unfold aircraft_or_empty. rewrite Hbl, Hal.
  unfold interpolate. rewrite (callsign_map_nodup bl Hndb).
  set (m := callsign_map al). set (f := fraction t before after).
  assert (Hcs : map callsign (map (interpolate_entry m f) (map entry bl))
                = map callsign bl).
  { rewrite !map_map. apply map_ext. intros a.
    apply (interpolate_entry_frame m f (entry a)). }
  split; [exact Hcs|split].
  - intros ac Hin Habs. apply in_map_iff. exists (entry ac). split.
    + apply interpolate_entry_absent. simpl. apply get_none.
      subst m. rewrite (callsign_map_nodup al Hnda), map_map. exact Habs.
    + now apply in_map.
  - intros c _ Hnb. now rewrite Hcs.
Qed.

Lemma departed_aircraft_kept_witness :
  map callsign (state_at [departing_before; departing_after] 5)
  = ["AC1"; "AC2"]%string
  /\ In (sample_aircraft "AC2" 3000 90)
        (state_at [departing_before; departing_after] 5).
Proof.
  assert (Hb : bracket [departing_before; departing_after] 5
               = Some ((0%nat, departing_before), (1%nat, departing_after)))
    by (vm_compute; reflexivity).
  assert (Hndb : NoDup (map callsign (aircraft_or_empty departing_before)))
    by (repeat constructor; simpl; intuition discriminate).
  assert (Hnda : NoDup (map callsign (aircraft_or_empty departing_after)))
    by (repeat constructor; simpl; intuition discriminate).
  destruct (departed_aircraft_kept _ _ _ _ _ _ Hb
              ltac:(simpl; discriminate) eq_refl eq_refl eq_refl Hndb Hnda)
    as (Hcs & Hkept & _).
  split; [exact Hcs|].
  apply Hkept; [right; left; reflexivity|].
  simpl. intuition discriminate.
Defined.

Lemma set_keys {V} (k : string) (v : V) (m : JsMap.t V) :
  In k (map fst m) -> map fst (JsMap.set k v m) = map fst m.
Proof.
  induction m as [|[k' v'] m IH]; simpl; [tauto|].
  destruct (String.eqb_spec k k') as [-> | Hne]; simpl; [reflexivity|].
  intros [H | H]; [congruence|]. now rewrite IH.
Qed.

Lemma set_nodup {V} (k : string) (v : V) (m : JsMap.t V) :
  NoDup (map fst m) -> NoDup (map fst (JsMap.set k v m)).
Proof.
  intros H. destruct (in_dec string_dec k (map fst m)) as [Hin | Hout].
  - now rewrite set_keys.
  - rewrite set_fresh, map_app by exact Hout. simpl.
    apply NoDup_app; [exact H | repeat constructor; intros [] |].
    intros x Hx [<- | []]. contradiction.
Qed.

Lemma callsign_map_keys (l : list Aircraft) : NoDup (map fst (callsign_map l)).
Proof.
  unfold callsign_map, JsMap.of_entries.
  generalize (map (fun a => (callsign a, a)) l).
  assert (H : NoDup (map fst (@nil (string * Aircraft)))) by constructor.
  revert H. generalize (@nil (string * Aircraft)).
  intros m Hm es. revert m Hm.
  induction es as [|e es IH]; intros m Hm; simpl; [exact Hm|].
  apply IH. now apply set_nodup.
Qed.

Lemma get_in {V} (m : JsMap.t V) (e : string * V) :
  NoDup (map fst m) -> In e m -> JsMap.get (fst e) m = Some (snd e).
Proof.
  induction m as [|[k' v'] m IH]; simpl; intros Hnd Hin; [tauto|].
  inversion Hnd as [|? ? Hk Hnd']; subst.
  destruct Hin as [<- | Hin]; simpl.
  - now rewrite String.eqb_refl.
  - destruct (String.eqb_spec (fst e) k') as [E | Hne]; [|now apply IH].
    exfalso. apply Hk. rewrite <- E. now apply in_map.
Qed.

(** C10.  In the interpolating case every emitted record has the callsign,
    the phase and the extra properties of a record of [before]'s list, the
    one that [before]'s list holds for that callsign: only altitude,
    heading, speed and position can differ from it. *)
Theorem interpolation_frame (snaps : list Event) (t : Q)
  (before after : Ref) (out : Aircraft) :
  bracket snaps t = Some (before, after) ->
  no_interpolation before after = false ->
  In out (state_at snaps t) ->
  exists b,
    In b (aircraft_or_empty (snd before))
    /\ JsMap.get (callsign out)
                 (callsign_map (aircraft_or_empty (snd before))) = Some b
    /\ callsign out = callsign b
    /\ phase out = phase b
    /\ extra out = extra b.
Proof.
  intros Hb Hn. rewrite (interpolating_case _ _ _ _ Hb Hn).
  unfold interpolate. intros Hin.
  apply in_map_iff in Hin. destruct Hin as (e & <- & He).
  pose proof (get_in _ _ (callsign_map_keys _) He) as Hget.
  apply callsign_map_in in He. destruct He as [He Hk].
  destruct (interpolate_entry_frame
              (callsign_map (aircraft_or_empty (snd after)))
              (fraction t before after) e) as (Hc & Hp & Hx).
  exists (snd e). split; [exact He|]. split; [|auto].
  rewrite Hc, <- Hk. exact Hget.
Qed.

Lemma interpolation_frame_witness :
  exists out b,
    state_at [scenario_before; scenario_after] 5 = [out]
    /\ In b (aircraft_or_empty scenario_before)
    /\ callsign out = callsign b
    /\ phase out = phase b
    /\ extra out = extra b.
Proof.
  assert (Hb : bracket [scenario_before; scenario_after] 5
               = Some ((0%nat, scenario_before), (1%nat, scenario_after)))
    by (vm_compute; reflexivity).
  assert (Hn : no_interpolation (0%nat, scenario_before)
                                (1%nat, scenario_after) = false)
    by (vm_compute; reflexivity).
  destruct (state_at [scenario_before; scenario_after] 5) as [|out l] eqn:E;
    [vm_compute in E; discriminate|].
  destruct l; [|vm_compute in E; discriminate].
  destruct (interpolation_frame _ _ _ _ out Hb Hn) as (b & Hin & _ & H).
  - rewrite E. now left.
  - exists out, b. split; [reflexivity|]. split; [exact Hin | exact H].
Defined.

(** ** Timeline markers *)

Lemma insert_perm {A} (compare : A -> A -> num) (x : A) (l : list A) :
  Permutation (x :: l) (JsArray.insert compare x l).
Proof.
  induction l as [|y l IH]; simpl; [reflexivity|].
  destruct (JsNum.gt (compare x y) 0); [|reflexivity].
  rewrite perm_swap. now constructor.
Qed.

Lemma sort_perm {A} (compare : A -> A -> num) (l : list A) :
  Permutation l (JsArray.sort compare l).
Proof.
  induction l as [|x l IH]; simpl; [constructor|].
  rewrite <- insert_perm. now constructor.
Qed.

(** The comparator is positive exactly on two numeric times in strictly
    descending order. *)
Lemma by_time_positive (x y : Marker) :
  JsNum.gt (by_time x y) 0 = true ->
  exists a b, time x = Some a /\ time y = Some b /\ b < a.
Proof.
  unfold by_time. destruct (time x) as [a|], (time y) as [b|];
    simpl; try discriminate.
  intros H. apply ltb_iff in H. exists a, b. repeat split. lra.
Qed.

Lemma by_time_not_positive (x y : Marker) :
  numeric_marker x -> numeric_marker y ->
  JsNum.gt (by_time x y) 0 = false -> marker_le x y.
Proof.
  unfold by_time, numeric_marker, marker_le.
  destruct (time x) as [a|], (time y) as [b|]; simpl; try congruence.
  intros _ _ H. apply ltb_false_iff in H. lra.
Qed.

Lemma marker_le_trans (x y z : Marker) :
  marker_le x y -> marker_le y z -> marker_le x z.
Proof.
  unfold marker_le.
  destruct (time x), (time y), (time z); try tauto. intros. lra.
Qed.

Lemma insert_sorted (x : Marker) (l : list Marker) :
  numeric_marker x -> Forall numeric_marker l ->
  StronglySorted marker_le l ->
  StronglySorted marker_le (JsArray.insert by_time x l).
Proof.
  intros Hx Hnum Hs. induction Hs as [|y l Hs IH Hy]; simpl.
  - repeat constructor.
  - inversion Hnum as [|? ? Hny Hnl]; subst.
    destruct (JsNum.gt (by_time x y) 0) eqn:E.
    + constructor; [now apply IH|].
      apply (Permutation_Forall (insert_perm by_time x l)).
      constructor; [|exact Hy].
      destruct (by_time_positive _ _ E) as (a & b & Ha & Hb & Hlt).
      unfold marker_le. rewrite Ha, Hb. lra.
    + pose proof (by_time_not_positive _ _ Hx Hny E) as Hxy.
      constructor; [now constructor|].
      constructor; [exact Hxy|].
      eapply Forall_impl; [|exact Hy].
      intros z Hz. now apply marker_le_trans with y.
Qed.

Lemma sort_sorted (l : list Marker) :
  Forall numeric_marker l ->
  StronglySorted marker_le (JsArray.sort by_time l).
Proof.
  induction 1 as [|x l Hx Hl IH]; simpl; [constructor|].
  apply insert_sorted; [exact Hx | | exact IH].
  now apply (Permutation_Forall (sort_perm by_time l)).
Qed.

(** Inserting keeps the markers of one time in their order, the new one
    first. *)
Lemma filter_insert (q : Q) (x : Marker) (l : list Marker) :
  filter (at_time q) (JsArray.insert by_time x l)
  = filter (at_time q) (x :: l).
Proof.
  induction l as [|y l IH]; simpl; [reflexivity|].
  destruct (JsNum.gt (by_time x y) 0) eqn:E; [|reflexivity].
  simpl. rewrite IH. simpl.
  destruct (at_time q x) eqn:Ex; [|reflexivity].
  destruct (at_time q y) eqn:Ey; [|reflexivity].
  exfalso. destruct (by_time_positive _ _ E) as (a & b & Ha & Hb & Hlt).
  unfold at_time in Ex, Ey. rewrite Ha in Ex. rewrite Hb in Ey.
  apply Qeq_bool_iff in Ex, Ey. lra.
Qed.

Lemma filter_sort (q : Q) (l : list Marker) :
  filter (at_time q) (JsArray.sort by_time l) = filter (at_time q) l.
Proof.
  induction l as [|x l IH]; simpl; [reflexivity|].
  rewrite filter_insert. simpl. now rewrite IH.
Qed.

Lemma pushed_markers_numeric (events : list Event) :
  (forall e, In e events ->
             has_type "conflict" e || has_type "ils_clearance" e = true ->
             numeric_time e) ->
  Forall numeric_marker (pushed_markers events).
Proof.
  intros H. unfold pushed_markers, conflicts.
  apply Forall_app. split; apply Forall_forall; intros m Hm;
    apply in_map_iff in Hm; destruct Hm as (e & <- & He);
    apply filter_In in He; destruct He as [Hin Hty];
    apply (H e Hin); rewrite Hty; auto using orb_true_r.
Qed.

(** C6.  For every event list whose conflict and ILS-clearance events have
    a numeric [game_time], in whatever order they come, [timelineEvents]
    is in ascending order of time, holds exactly the markers pushed, and
    the markers of any one time stand in the order in which they were
    pushed: the conflicts in input order, then the clearances in input
    order. *)
Theorem timelineEvents_sorted_stable (events : list Event) :
  (forall e, In e events ->
             has_type "conflict" e || has_type "ils_clearance" e = true ->
             numeric_time e) ->
  StronglySorted marker_le (timelineEvents events)
  /\ Permutation (pushed_markers events) (timelineEvents events)
  /\ forall q,
       filter (at_time q) (timelineEvents events)
       = filter (at_time q)
           (map conflict_marker (filter (has_type "conflict") events)
            ++ map ils_marker (filter (has_type "ils_clearance") events)).
Proof.
  intros H. unfold timelineEvents. split; [|split].
  - apply sort_sorted. now apply pushed_markers_numeric.
  - apply sort_perm.
  - intros q. apply filter_sort.
Qed.

Lemma timelineEvents_sorted_stable_witness :
  StronglySorted marker_le (timelineEvents sample_log)
  /\ map type (filter (at_time 3) (timelineEvents sample_log))
     = ["conflict"; "ils"]%string.
Proof.
  destruct (timelineEvents_sorted_stable sample_log) as (Hs & _ & Hst).
  - intros e Hin _. simpl in Hin.
    repeat (destruct Hin as [<- | Hin]; [discriminate|]). destruct Hin.
  - split; [exact Hs|]. rewrite Hst. reflexivity.
Defined.

(** ** Loading *)




(** ** The playback clock *)

Lemma pause_playing (st : Page) : playing (pause st) = false.
Proof.
  unfold pause. simpl. now destruct (animationFrame st) as [[|h]|].
Qed.

Lemma pause_keeps (st : Page) :
  currentTime (pause st) = currentTime st
  /\ lastRealTime (pause st) = lastRealTime st
  /\ playbackSpeed (pause st) = playbackSpeed st
  /\ events (pause st) = events st
  /\ frameCount (pause st) = frameCount st.
Proof.
  unfold pause. simpl. now destruct (animationFrame st) as [[|h]|].
Qed.

(** A tick of the running clock with a recorded last tick: the cursor
    advances by the elapsed seconds times the speed, up to [maxTime]; the
    last tick becomes [now]; the clock stops when the cursor is at
    [maxTime]; and, stopped or not, the next frame is requested. *)
Lemma tick_running (st : Page) (now last : Q) :
  playing st = true ->
  lastRealTime st = Some last ->
  let cursor :=
    Qmin (currentTime st + (now - last) / 1000 * playbackSpeed st)
         (maxTime (events st)) in
  currentTime (tick now st) = cursor
  /\ lastRealTime (tick now st) = Some now
  /\ playing (tick now st) = negb (Qle_bool (maxTime (events st)) cursor)
  /\ animationFrame (tick now st) = Some (S (frameCount st))
  /\ In (S (frameCount st)) (pending (tick now st)).
Proof.
  intros Hp Hl. unfold tick. rewrite Hp, Hl. simpl.
  destruct (Qle_bool _ _) eqn:E; simpl.
  - unfold pause. simpl.
    destruct (animationFrame st) as [[|h]|]; simpl;
      repeat split; apply in_or_app; right; now left.
  - repeat split; try exact Hp. apply in_or_app; right; now left.
Qed.

(** C7, evaluated on the code.  Running at speed 2 from cursor 0 with
    [maxTime] 1, a tick one second after the last one puts the cursor at
    [maxTime] and stops the clock, and yet requests another frame: its
    handle is in [animationFrame] and its callback is pending. *)
Theorem tick_at_end_reschedules :
  playing ending_page = true
  /\ maxTime (events ending_page) == 1
  /\ currentTime (tick 1000 ending_page) == 1
  /\ lastRealTime (tick 1000 ending_page) = Some 1000
  /\ playing (tick 1000 ending_page) = false
  /\ animationFrame (tick 1000 ending_page) = Some 2%nat
  /\ pending (tick 1000 ending_page) = [2%nat].
Proof.
  repeat split; vm_compute; reflexivity.
Qed.

(** C9.  With [playing] false a tick changes nothing: the cursor, the
    last tick, [playing] and the pending frames are as before.  So it is
    for a tick that runs after [pause], called directly or run by the
    browser from a frame that was still queued. *)
Theorem stale_tick_is_noop :
  (forall st now, playing st = false -> tick now st = st)
  /\ (forall st now, tick now (pause st) = pause st)
  /\ (forall st h now,
        currentTime (run_frame h now (pause st)) = currentTime st
        /\ lastRealTime (run_frame h now (pause st)) = lastRealTime st
        /\ playing (run_frame h now (pause st)) = false
        /\ animationFrame (run_frame h now (pause st))
           = animationFrame (pause st)
        /\ frameCount (run_frame h now (pause st)) = frameCount st
        /\ incl (pending (run_frame h now (pause st))) (pending (pause st))).
Proof.
  assert (Hnoop : forall st now, playing st = false -> tick now st = st).
  { intros st now H. unfold tick. now rewrite H. }
  split; [exact Hnoop|]. split.
  - intros st now. apply Hnoop, pause_playing.
  - intros st h now.
    destruct (pause_keeps st) as (Hc & Hl & _ & _ & Hf).
    unfold run_frame.
    destruct (existsb (Nat.eqb h) (pending (pause st))).
    + rewrite Hnoop by (simpl; apply pause_playing). simpl.
      rewrite Hc, Hl, Hf, pause_playing. repeat split.
      intros x Hx. now apply filter_In in Hx.
    + rewrite Hc, Hl, Hf, pause_playing. repeat split. apply incl_refl.
Qed.

Lemma stale_tick_is_noop_witness :
  playing (pause fast_page) = false
  /\ tick 1000 (pause fast_page) = pause fast_page.
Proof.
  split; [reflexivity|].
  apply (proj1 stale_tick_is_noop (pause fast_page) 1000). reflexivity.
Defined.

(** ** Seeking and speed keys *)

Lemma max_list_ge (x : Q) (xs : list Q) : x <= JsNum.max_list x xs.
Proof.
  unfold JsNum.max_list. revert x.
  induction xs as [|y xs IH]; intros x; simpl; [lra|].
  apply Qle_trans with (Qmax x y); [apply Q.le_max_l | apply IH].
Qed.

(** With no negative [game_time] in the log, [maxTime] is not negative. *)
Lemma maxTime_nonneg (evs : list Event) :
  (forall e g, In e evs -> game_time e = Some g -> 0 <= g) ->
  0 <= maxTime evs.
Proof.
  intros H. unfold maxTime. destruct evs as [|e evs]; simpl; [lra|].
  apply Qle_trans with (JsNum.or_zero (game_time e)); [|apply max_list_ge].
  unfold JsNum.or_zero. destruct (game_time e) as [g|] eqn:Eg; [|lra].
  destruct (Qeq_bool g 0); [lra|]. apply (H e g); [now left | exact Eg].
Qed.

(** C8.  With [maxTime] not negative, [seek] puts the cursor at 0 for a
    time below 0, at [maxTime] for a time above it and at the time itself
    in between, and leaves [playing] as it is; the keys [+] and [=] set
    the speed to [min(speed * 2, 10)] and [-] to [max(speed / 2, 0.5)].
    The functions are total: no request is refused. *)
Theorem seek_and_speed_clamp (st : Page) (t now now' : Q) :
  0 <= maxTime (events st) ->
  (t < 0 -> currentTime (seek t st) == 0)
  /\ (maxTime (events st) < t ->
      currentTime (seek t st) == maxTime (events st))
  /\ (0 <= t <= maxTime (events st) -> currentTime (seek t st) == t)
  /\ 0 <= currentTime (seek t st) <= maxTime (events st)
  /\ playing (seek t st) = playing st
  /\ playbackSpeed (handleKeydown "+" now now' st)
     = Qmin (playbackSpeed st * 2) 10
  /\ playbackSpeed (handleKeydown "=" now now' st)
     = Qmin (playbackSpeed st * 2) 10
  /\ playbackSpeed (handleKeydown "-" now now' st)
     = Qmax (playbackSpeed st / 2) (1 # 2).
Proof.
  intros Hmax. unfold seek. simpl.
  set (m := maxTime (events st)) in *.
  destruct (Q.min_spec t m) as [[H1 E1] | [H1 E1]];
    destruct (Q.max_spec 0 (Qmin t m)) as [[H2 E2] | [H2 E2]];
    repeat split; try reflexivity; intros; lra.
Qed.

Lemma seek_and_speed_clamp_witness :
  0 <= maxTime (events fast_page)
  /\ currentTime (seek 75 fast_page) == maxTime (events fast_page)
  /\ currentTime (seek (-(5)) fast_page) == 0.
Proof.
  assert (H : 0 <= maxTime (events fast_page)) by (vm_compute; discriminate).
  destruct (seek_and_speed_clamp fast_page 75 0 0 H) as (_ & Hhi & _).
  destruct (seek_and_speed_clamp fast_page (-(5)) 0 0 H) as (Hlo & _).
  split; [exact H|]. split.
  - apply Hhi. vm_compute. reflexivity.
  - apply Hlo. vm_compute. reflexivity.
Defined.

(** ** The end of the timeline *)

Lemma Qmax_cases (x y : Q) : Qmax x y = x \/ Qmax x y = y.
Proof.
  unfold Qmax, GenericMinMax.gmax. destruct (x ?= y); auto.
Qed.

Lemma max_list_in (x : Q) (xs : list Q) : In (JsNum.max_list x xs) (x :: xs).
Proof.
  unfold JsNum.max_list. revert x.
  induction xs as [|y xs IH]; intros x; simpl; [now left|].
  destruct (IH (Qmax x y)) as [E | E].
  - rewrite <- E. destruct (Qmax_cases x y) as [-> | ->]; auto.
  - auto.
Qed.

Lemma max_list_upper (x : Q) (xs : list Q) (y : Q) :
  In y (x :: xs) -> y <= JsNum.max_list x xs.
Proof.
  unfold JsNum.max_list. revert x.
  induction xs as [|z xs IH]; intros x; simpl.
  - intros [E | []]. rewrite E. lra.
  - intros [E | [E | H]].
    + rewrite <- E.
      apply Qle_trans with (Qmax x z); [apply Q.le_max_l|].
      apply (max_list_ge (Qmax x z) xs).
    + rewrite <- E.
      apply Qle_trans with (Qmax x z); [apply Q.le_max_r|].
      apply (max_list_ge (Qmax x z) xs).
    + apply IH. now right.
Qed.

Lemma or_zero_ge (g : Q) : g <= JsNum.or_zero (Some g).
Proof.
  unfold JsNum.or_zero. destruct (Qeq_bool g 0) eqn:E; [|lra].
  apply Qeq_bool_iff in E. lra.
Qed.

Lemma maxTime_bounds (evs : list Event) :
  maxTime [] = 0
  /\ (forall e, In e evs -> JsNum.or_zero (game_time e) <= maxTime evs)
  /\ (forall e g, In e evs -> game_time e = Some g -> g <= maxTime evs)
  /\ (evs <> [] ->
      exists e, In e evs /\ maxTime evs = JsNum.or_zero (game_time e)).
Proof.
  assert (Hub : forall e, In e evs ->
                          JsNum.or_zero (game_time e) <= maxTime evs).
  { intros e Hin. unfold maxTime.
    apply (in_map (fun e => JsNum.or_zero (game_time e))) in Hin.
    destruct (map _ evs) as [|x xs]; [destruct Hin|].
    now apply max_list_upper. }
  split; [reflexivity|]. split; [exact Hub|]. split.
  - intros e g Hin Hg. apply Qle_trans with (JsNum.or_zero (game_time e)).
    + rewrite Hg. apply or_zero_ge.
    + now apply Hub.
  - intros Hne. unfold maxTime.
    destruct (map (fun e => JsNum.or_zero (game_time e)) evs)
      as [|x xs] eqn:E.
    + destruct evs; [congruence | discriminate].
    + pose proof (max_list_in x xs) as Hin. rewrite <- E in Hin.
      apply in_map_iff in Hin. destruct Hin as (e & He & Hin).
      exists e. split; [exact Hin | now symmetry].
Qed.

(** [maxTime] is 0 for the empty log; otherwise it is the [game_time || 0]
    of one of the events, and no event has a greater [game_time]. *)
Theorem maxTime_is_maximum (evs : list Event) :
  maxTime [] = 0
  /\ (forall e, In e evs -> JsNum.or_zero (game_time e) <= maxTime evs)
  /\ (forall e g, In e evs -> game_time e = Some g -> g <= maxTime evs)
  /\ (evs <> [] ->
      exists e, In e evs /\ maxTime evs = JsNum.or_zero (game_time e)).
Proof.
  exact (maxTime_bounds evs).
Qed.

Lemma maxTime_is_maximum_witness :
  10 <= maxTime [scenario_before; scenario_after]
  /\ exists e, In e [scenario_before; scenario_after]
               /\ maxTime [scenario_before; scenario_after]
                  = JsNum.or_zero (game_time e).
Proof.
  destruct (maxTime_is_maximum [scenario_before; scenario_after])
    as (_ & _ & Hub & Hatt).
  split.
  - apply (Hub scenario_after 10); [right; left; reflexivity | reflexivity].
  - apply Hatt. discriminate.
Defined.

(** ** The cursor before the first snapshot *)

Lemma indexed_cons (s : Event) (rest : list Event) :
  indexed (s :: rest)
  = (0%nat, s) :: combine (seq 1 (List.length rest)) rest.
Proof. reflexivity. Qed.

(** Without snapshots there is no aircraft; a single snapshot is the
    state at every time; and on a sorted sequence a cursor before the
    first snapshot shows the first snapshot's list as it is. *)
Theorem state_at_clamped_at_start :
  (forall t, state_at [] t = [])
  /\ (forall s t, state_at [s] t = aircraft_or_empty s)
  /\ (forall s rest g t,
        time_sorted (s :: rest) ->
        game_time s = Some g ->
        t < g ->
        state_at (s :: rest) t = aircraft_or_empty s).
Proof.
  split; [reflexivity|]. split.
  - intros s t. unfold state_at, bracket. simpl.
    unfold ref_time. simpl.
    destruct (JsNum.le (game_time s) t);
      destruct (JsNum.ge (game_time s) t && JsNum.lt (game_time s) t);
      reflexivity.
  - intros s rest g t [Hnum Hsort] Hg Hlt.
    pose proof (combine_sorted (seq 0 (List.length (s :: rest))) _ Hsort) as Hs.
    pose proof (combine_numeric (seq 0 (List.length (s :: rest))) _ Hnum) as Hn.
    fold (indexed (s :: rest)) in Hs, Hn.
    assert (Hall : Forall (fun r => at_or_before t r = false)
                          (indexed (s :: rest))).
    { rewrite indexed_cons in *.
      inversion Hs as [|? ? _ Hfirst]; subst.
      assert (H0 : at_or_before t (0%nat, s) = false).
      { unfold at_or_before, ref_time. simpl. rewrite Hg. simpl.
        destruct (Qle_bool g t) eqn:E; [|reflexivity].
        apply Qle_bool_iff in E. lra. }
      constructor; [exact H0|].
      rewrite Forall_forall in Hfirst |- *. intros r Hr.
      specialize (Hfirst r Hr). unfold ref_le, time_le in Hfirst.
      simpl in Hfirst. rewrite Hg in Hfirst.
      unfold at_or_before, ref_time.
      destruct (game_time (snd r)) as [x|]; [|reflexivity]. simpl.
      destruct (Qle_bool x t) eqn:E; [|reflexivity].
      apply Qle_bool_iff in E. lra. }
    assert (Hb : bracket (s :: rest) t = Some ((0%nat, s), (0%nat, s))).
    { unfold bracket. rewrite indexed_cons in *.
      set (l := (0%nat, s) :: combine (seq 1 (List.length rest)) rest) in *.
      change (Some (bracket_loop t l (0%nat, s) (0%nat, s))
              = Some ((0%nat, s), (0%nat, s))).
      f_equal.
      rewrite (surjective_pairing (bracket_loop t l _ _)). f_equal.
      - now apply loop_before_default.
      - rewrite loop_after_find.
        assert (E : JsNum.lt (ref_time (0%nat, s)) t = false).
        { unfold ref_time. simpl. rewrite Hg. simpl.
          apply ltb_false_iff. lra. }
        now rewrite E. }
    apply (no_interpolation_returns_before _ _ _ _ Hb).
    unfold no_interpolation. simpl. reflexivity.
Qed.

Lemma state_at_clamped_at_start_witness :
  state_at [sample_snapshot 3 [sample_aircraft "AC1" 1000 350]; scenario_after]
           1
  = [sample_aircraft "AC1" 1000 350].
Proof.
  apply (proj2 (proj2 state_at_clamped_at_start)
           (sample_snapshot 3 [sample_aircraft "AC1" 1000 350])
           [scenario_after] 3 1).
  - split.
    + repeat constructor; discriminate.
    + repeat constructor. unfold time_le. simpl. lra.
  - reflexivity.
  - reflexivity.
Defined.

(** ** The cursor within the span of the snapshots *)

Lemma sorted_app_after {A} (R : A -> A -> Prop) (l1 l2 : list A) (s : A) :
  StronglySorted R (l1 ++ s :: l2) -> Forall (R s) l2.
Proof.
  induction l1 as [|x l1 IH]; simpl; intros H; inversion H; subst; auto.
Qed.

Lemma sorted_app_before {A} (R : A -> A -> Prop) (l1 l2 : list A) (s : A) :
  StronglySorted R (l1 ++ s :: l2) -> Forall (fun x => R x s) l1.
Proof.
  induction l1 as [|x l1 IH]; simpl; intros H; [constructor|].
  inversion H as [|? ? Hs Hx]; subst. constructor; [|now apply IH].
  rewrite Forall_forall in Hx. apply Hx. apply in_or_app. right. now left.
Qed.

(** Where the loop leaves [before]: at its initial value when no element
    is at or before the cursor, else at the last such element. *)
Lemma loop_before_split (t : Q) (l : list Ref) (b a : Ref) :
  (fst (bracket_loop t l b a) = b
   /\ Forall (fun r => at_or_before t r = false) l)
  \/ exists l1 l2,
       l = l1 ++ fst (bracket_loop t l b a) :: l2
       /\ at_or_before t (fst (bracket_loop t l b a)) = true
       /\ Forall (fun r => at_or_before t r = false) l2.
Proof.
  revert b a. induction l as [|x l IH]; intros b a.
  - left. split; [reflexivity | constructor].
  - cbn [bracket_loop].
    match goal with |- context [bracket_loop t l ?b' ?a'] =>
      destruct (IH b' a') as [[E Hall] | (l1 & l2 & E & Hle & Hall)]
    end.
    + fold (at_or_before t x) in E |- *.
      destruct (at_or_before t x) eqn:Ex.
      * right. exists [], l. rewrite E. repeat split; trivial.
      * left. split; [exact E | now constructor].
    + right. exists (x :: l1), l2. split; [|split; assumption].
      simpl. f_equal. exact E.
Qed.

Lemma find_split {A} (p : A -> bool) (l : list A) (f : A) :
  find p l = Some f ->
  exists l1 l2,
    l = l1 ++ f :: l2 /\ Forall (fun r => p r = false) l1 /\ p f = true.
Proof.
  induction l as [|x l IH]; simpl; [discriminate|].
  destruct (p x) eqn:Ex.
  - intros [= <-]. exists [], l. repeat split; trivial.
  - intros H. destruct (IH H) as (l1 & l2 & -> & Hall & Hf).
    exists (x :: l1), l2. repeat split; trivial. now constructor.
Qed.

Lemma in_indexed_from (n : nat) (l : list Event) (s : Event) :
  In s l -> exists i, In (i, s) (combine (seq n (List.length l)) l).
Proof.
  revert n. induction l as [|x l IH]; intros n; simpl; [tauto|].
  intros [-> | H].
  - exists n. now left.
  - destruct (IH (S n) H) as [i Hi]. exists i. now right.
Qed.


(** The facts on the two snapshots that the loop chooses when the cursor
    is within the span of a sorted sequence. *)
Lemma bracket_within_span (snaps : list Event) (t : Q) (before after : Ref) :
  time_sorted snaps ->
  bracket snaps t = Some (before, after) ->
  (exists s, In s snaps /\ JsNum.le (game_time s) t = true) ->
  (exists s, In s snaps /\ JsNum.ge (game_time s) t = true) ->
  exists tb ta,
    ref_time before = Some tb
    /\ ref_time after = Some ta
    /\ tb <= t <= ta
    /\ forall s x, In s snaps -> game_time s = Some x -> x <= tb \/ ta <= x.
Proof.
  intros [Hnum Hsort] Hb (sl & Hsl & Hle) (sg & Hsg & Hge).
  pose proof (combine_sorted (seq 0 (List.length snaps)) snaps Hsort) as Hs.
  pose proof (combine_numeric (seq 0 (List.length snaps)) snaps Hnum) as Hn.
  fold (indexed snaps) in Hs, Hn.
  assert (Hidx : forall s, In s snaps -> exists i, In (i, s) (indexed snaps))
    by (intros s; apply in_indexed_from).
  destruct (bracket_some _ _ _ _ Hb) as (s0 & rest & E & Hl).
  rewrite E in Hs, Hn, Hidx. clear E Hb.
  set (l := s0 :: rest) in *.
  (* before *)
  destruct (loop_before_split t l s0 s0)
    as [[_ Hall] | (l1 & l2 & El & Hbl & Hl2)].
  { exfalso. destruct (Hidx sl Hsl) as [i Hi].
    rewrite Forall_forall in Hall. specialize (Hall _ Hi).
    unfold at_or_before, ref_time in Hall. simpl in Hall. congruence. }
  rewrite Hl in El, Hbl. cbn [fst] in El, Hbl.
  (* after *)
  destruct (Hidx sg Hsg) as [ig Hig].
  assert (Hfind : exists f, find (at_or_after t) l = Some f).
  { destruct (find (at_or_after t) l) as [f|] eqn:Ef; [now exists f|].
    exfalso. apply (find_none _ _ Ef) in Hig.
    unfold at_or_after, ref_time in Hig. simpl in Hig. congruence. }
  destruct Hfind as [f Ef].
  assert (Ha : after = f).
  { pose proof (loop_after_find t l s0 s0) as H.
    rewrite Hl, Ef in H. cbn [snd] in H.
    destruct (JsNum.lt (ref_time s0) t) eqn:E0; [exact H|].
    subst after. unfold l in Ef. simpl in Ef.
    destruct (at_or_after t s0) eqn:E1; [congruence|].
    exfalso. inversion Hn as [|? ? Hn0 _]; subst.
    unfold at_or_after in E1.
    destruct (ref_time s0) as [x0|]; [|congruence].
    simpl in E0, E1. apply ltb_false_iff in E0.
    apply (proj2 (Qle_bool_iff t x0)) in E0. congruence. }
  subst f.
  destruct (find_split _ _ _ Ef) as (m1 & m2 & Em & Hm1 & Haf).
  unfold at_or_before in Hbl. unfold at_or_after in Haf.
  destruct (ref_time before) as [tb|] eqn:Etb; [|discriminate].
  destruct (ref_time after) as [ta|] eqn:Eta; [|discriminate].
  simpl in Hbl, Haf. apply Qle_bool_iff in Hbl, Haf.
  exists tb, ta. repeat split; trivial.
  intros s x Hin Hx. destruct (Hidx s Hin) as [i Hi].
  assert (Hix : ref_time (i, s) = Some x) by exact Hx.
  pose proof Hi as Hi'. rewrite El in Hi'.
  apply in_app_or in Hi'. destruct Hi' as [H1 | [H1 | H1]].
  - left. rewrite El in Hs.
    pose proof (sorted_app_before _ _ _ _ Hs) as Hbef.
    rewrite Forall_forall in Hbef. specialize (Hbef _ H1).
    unfold ref_le, time_le in Hbef. unfold ref_time in *.
    simpl in Hbef, Hix. rewrite Hix, Etb in Hbef. exact Hbef.
  - left. rewrite H1 in Etb. rewrite Etb in Hix.
    injection Hix as ->. lra.
  - right. rewrite Forall_forall in Hl2. specialize (Hl2 _ H1).
    unfold at_or_before in Hl2. rewrite Hix in Hl2. simpl in Hl2.
    assert (Hgt : t < x).
    { apply Qnot_le_lt. intros H. apply Qle_bool_iff in H. congruence. }
    rewrite Em in Hi. apply in_app_or in Hi. destruct Hi as [H2 | [H2 | H2]].
    + exfalso. rewrite Forall_forall in Hm1. specialize (Hm1 _ H2).
      unfold at_or_after in Hm1. rewrite Hix in Hm1. simpl in Hm1.
      assert (H : Qle_bool t x = true) by (apply Qle_bool_iff; lra).
      congruence.
    + rewrite H2 in Eta. rewrite Eta in Hix. injection Hix as ->. lra.
    + rewrite Em in Hs.
      pose proof (sorted_app_after _ _ _ _ Hs) as Haft.
      rewrite Forall_forall in Haft. specialize (Haft _ H2).
      unfold ref_le, time_le in Haft. unfold ref_time in *.
      simpl in Haft, Hix. rewrite Hix, Eta in Haft. exact Haft.
Qed.

Lemma bracket_and_fraction (snaps : list Event) (t : Q)
  (before after : Ref) :
  time_sorted snaps ->
  bracket snaps t = Some (before, after) ->
  (exists s, In s snaps /\ JsNum.le (game_time s) t = true) ->
  (exists s, In s snaps /\ JsNum.ge (game_time s) t = true) ->
  exists tb ta,
    ref_time before = Some tb
    /\ ref_time after = Some ta
    /\ tb <= t <= ta
    /\ (forall s x, In s snaps -> game_time s = Some x -> x <= tb \/ ta <= x)
    /\ (no_interpolation before after = false ->
        tb < ta
        /\ fraction t before after = Some ((t - tb) / (ta - tb))
        /\ 0 <= (t - tb) / (ta - tb) <= 1).
Proof.
  intros Hsorted Hb Hlo Hhi.
  destruct (bracket_within_span _ _ _ _ Hsorted Hb Hlo Hhi)
    as (tb & ta & Etb & Eta & Ht & Hadj).
  exists tb, ta. repeat split; trivial; try apply Ht.
  - unfold no_interpolation in H. rewrite !orb_false_iff in H.
    destruct H as (_ & Hne). rewrite Etb, Eta in Hne. simpl in Hne.
    apply Qnot_le_lt. intros Hle.
    assert (E : tb == ta) by lra.
    apply Qeq_bool_iff in E. congruence.
  - unfold no_interpolation in H. rewrite !orb_false_iff in H.
    destruct H as (_ & Hne). rewrite Etb, Eta in Hne. simpl in Hne.
    unfold fraction. rewrite Etb, Eta. simpl.
    destruct (Qeq_bool (ta - tb) 0) eqn:E; [|reflexivity].
    apply Qeq_bool_iff in E.
    assert (E' : tb == ta) by lra.
    apply Qeq_bool_iff in E'. congruence.
  - unfold no_interpolation in H. rewrite !orb_false_iff in H.
    destruct H as (_ & Hne). rewrite Etb, Eta in Hne. simpl in Hne.
    assert (Hlt : tb < ta).
    { apply Qnot_le_lt. intros Hle. assert (E : tb == ta) by lra.
      apply Qeq_bool_iff in E. congruence. }
    apply Qle_shift_div_l; lra.
  - unfold no_interpolation in H. rewrite !orb_false_iff in H.
    destruct H as (_ & Hne). rewrite Etb, Eta in Hne. simpl in Hne.
    assert (Hlt : tb < ta).
    { apply Qnot_le_lt. intros Hle. assert (E : tb == ta) by lra.
      apply Qeq_bool_iff in E. congruence. }
    apply Qle_shift_div_r; lra.
Qed.

(** On a sorted sequence with a snapshot at or before the cursor and one
    at or after it, [before] and [after] surround the cursor and no
    snapshot lies strictly between them in time; and when the state is
    interpolated, [before] is strictly earlier than [after] and the
    fraction is [(t - tb) / (ta - tb)], a number of [[0,1]]. *)
Theorem bracket_surrounds_cursor (snaps : list Event) (t : Q)
  (before after : Ref) :
  time_sorted snaps ->
  bracket snaps t = Some (before, after) ->
  (exists s, In s snaps /\ JsNum.le (game_time s) t = true) ->
  (exists s, In s snaps /\ JsNum.ge (game_time s) t = true) ->
  exists tb ta,
    ref_time before = Some tb
    /\ ref_time after = Some ta
    /\ tb <= t <= ta
    /\ (forall s x, In s snaps -> game_time s = Some x -> x <= tb \/ ta <= x)
    /\ (no_interpolation before after = false ->
        tb < ta
        /\ fraction t before after = Some ((t - tb) / (ta - tb))
        /\ 0 <= (t - tb) / (ta - tb) <= 1).
Proof.
  exact (bracket_and_fraction snaps t before after).
Qed.

Lemma bracket_surrounds_cursor_witness :
  exists tb ta,
    tb <= 5 <= ta
    /\ fraction 5 (0%nat, scenario_before) (1%nat, scenario_after)
       = Some ((5 - tb) / (ta - tb)).
Proof.
  assert (Hb : bracket [scenario_before; scenario_after] 5
               = Some ((0%nat, scenario_before), (1%nat, scenario_after)))
    by (vm_compute; reflexivity).
  destruct (bracket_surrounds_cursor _ _ _ _ scenario_sorted Hb)
    as (tb & ta & _ & _ & Ht & _ & Hf).
  - exists scenario_before. split; [now left | reflexivity].
  - exists scenario_after. split; [right; now left | reflexivity].
  - exists tb, ta. split; [exact Ht|]. apply Hf. reflexivity.
Defined.




(** ** Duplicate callsigns *)

Lemma set_keys_in {V} (k k' : string) (v : V) (m : JsMap.t V) :
  In k' (map fst (JsMap.set k v m)) <-> k' = k \/ In k' (map fst m).
Proof.
  destruct (in_dec string_dec k (map fst m)) as [Hin | Hout].
  - rewrite set_keys by exact Hin. split; [tauto|].
    intros [-> | H]; assumption.
  - rewrite set_fresh, map_app, in_app_iff by exact Hout. simpl.
    split; [intros [H | [H | []]] | intros [H | H]]; auto.
Qed.

Lemma fold_set_keys {V} (es : list (string * V)) (m : JsMap.t V) (k : string) :
  In k (map fst (fold_left (fun m e => JsMap.set (fst e) (snd e) m) es m))
  <-> In k (map fst m) \/ In k (map fst es).
Proof.
  revert m. induction es as [|e es IH]; intros m; simpl; [tauto|].
  rewrite IH, set_keys_in. split.
  - intros [[-> | H] | H]; auto.
  - intros [H | [<- | H]]; auto.
Qed.

Lemma callsign_map_key_set (l : list Aircraft) (c : string) :
  In c (map fst (callsign_map l)) <-> In c (map callsign l).
Proof.
  unfold callsign_map, JsMap.of_entries. rewrite fold_set_keys, map_map.
  simpl. tauto.
Qed.

Lemma interpolate_callsigns (bl al : list Aircraft) (t : num) :
  map callsign (interpolate bl al t) = map fst (callsign_map bl).
Proof.
  unfold interpolate. rewrite map_map. apply map_ext_in.
  intros e He. apply callsign_map_in in He. destruct He as [_ Hk].
  rewrite Hk. apply interpolate_entry_frame.
Qed.

(** An interpolated state has one record for each callsign of [before]'s
    list and no two records with the same callsign, also when [before]'s
    list has a callsign more than once. *)
Theorem interpolated_callsigns_unique (snaps : list Event) (t : Q)
  (before after : Ref) :
  bracket snaps t = Some (before, after) ->
  no_interpolation before after = false ->
  NoDup (map callsign (state_at snaps t))
  /\ (forall c, In c (map callsign (state_at snaps t))
                <-> In c (map callsign (aircraft_or_empty (snd before))))
  /\ (List.length (state_at snaps t)
      <= List.length (aircraft_or_empty (snd before)))%nat.
Proof.
  intros Hb Hn. rewrite (interpolating_case _ _ _ _ Hb Hn).
  set (bl := aircraft_or_empty (snd before)).
  assert (Hnd : NoDup (map callsign (interpolate bl
                         (aircraft_or_empty (snd after))
                         (fraction t before after)))).
  { rewrite interpolate_callsigns. apply callsign_map_keys. }
  assert (Hset : forall c,
             In c (map callsign (interpolate bl
                     (aircraft_or_empty (snd after))
                     (fraction t before after)))
             <-> In c (map callsign bl)).
  { intros c. rewrite interpolate_callsigns. apply callsign_map_key_set. }
  split; [exact Hnd|]. split; [exact Hset|].
  rewrite <- (length_map callsign (interpolate _ _ _)).
  rewrite <- (length_map callsign bl).
  apply NoDup_incl_length; [exact Hnd|].
  intros c Hc. now apply Hset.
Qed.

Lemma interpolated_callsigns_unique_witness :
  NoDup (map callsign
           (state_at
              [sample_snapshot 0 [sample_aircraft "AC1" 1000 350;
                                  sample_aircraft "AC1" 3000 90];
               scenario_after] 5))
  /\ (List.length
        (state_at
           [sample_snapshot 0 [sample_aircraft "AC1" 1000 350;
                               sample_aircraft "AC1" 3000 90];
            scenario_after] 5) <= 2)%nat.
Proof.
  destruct (interpolated_callsigns_unique
              [sample_snapshot 0 [sample_aircraft "AC1" 1000 350;
                                  sample_aircraft "AC1" 3000 90];
               scenario_after] 5
              (0%nat, sample_snapshot 0 [sample_aircraft "AC1" 1000 350;
                                         sample_aircraft "AC1" 3000 90])
              (1%nat, scenario_after))
    as (Hnd & _ & Hlen).
  - vm_compute. reflexivity.
  - vm_compute. reflexivity.
  - split; [exact Hnd | exact Hlen].
Defined.

(** ** The clock over several ticks *)

Lemma tick_keeps (st : Page) (now : Q) :
  events (tick now st) = events st
  /\ playbackSpeed (tick now st) = playbackSpeed st
  /\ loading (tick now st) = loading st
  /\ error (tick now st) = error st.
Proof.
  unfold tick. destruct (playing st); simpl; [|auto].
  destruct (lastRealTime st) as [last|]; simpl; [|auto].
  destruct (Qle_bool _ _); simpl; [|auto].
  unfold pause. simpl. destruct (animationFrame st) as [[|h]|]; simpl; auto.
Qed.

Lemma tick_first (st : Page) (now : Q) :
  playing st = true ->
  lastRealTime st = None ->
  currentTime (tick now st) = currentTime st
  /\ lastRealTime (tick now st) = Some now
  /\ playing (tick now st) = true.
Proof.
  intros Hp Hl. unfold tick. rewrite Hp, Hl. simpl. auto.
Qed.

(** During playback the cursor never moves back and never passes the
    end: with the cursor at or before [maxTime], a speed that is not
    negative and a clock reading not before the last tick, a tick leaves
    the cursor between its old value and [maxTime]; and a tick of the
    running clock with a recorded last tick stops the clock exactly when
    it leaves the cursor at [maxTime]. *)
Theorem tick_moves_forward (st : Page) (now : Q) :
  currentTime st <= maxTime (events st) ->
  0 <= playbackSpeed st ->
  not_before st now ->
  currentTime st <= currentTime (tick now st) <= maxTime (events st)
  /\ (forall last,
        playing st = true -> lastRealTime st = Some last ->
        (playing (tick now st) = false
         <-> currentTime (tick now st) == maxTime (events st))).
Proof.
  intros Hc Hs Hnow. split.
  - destruct (playing st) eqn:Hp.
    + destruct (lastRealTime st) as [last|] eqn:Hl.
      * destruct (tick_running st now last Hp Hl) as (-> & _).
        unfold not_before in Hnow. rewrite Hl in Hnow.
        assert (Hd : 0 <= (now - last) / 1000 * playbackSpeed st).
        { apply Qmult_le_0_compat; [|exact Hs].
          unfold Qdiv. apply Qmult_le_0_compat; [lra | discriminate]. }
        destruct (Q.min_spec
                    (currentTime st + (now - last) / 1000 * playbackSpeed st)
                    (maxTime (events st))) as [[H1 E1] | [H1 E1]];
          rewrite E1; lra.
      * destruct (tick_first st now Hp Hl) as (-> & _). lra.
    + unfold tick. rewrite Hp. simpl. lra.
  - intros last Hp Hl.
    destruct (tick_running st now last Hp Hl) as (Ec & _ & Ep & _).
    cbv zeta in Ec, Ep. rewrite Ec, Ep, negb_false_iff, Qle_bool_iff.
    destruct (Q.min_spec
                (currentTime st + (now - last) / 1000 * playbackSpeed st)
                (maxTime (events st))) as [[H1 E1] | [H1 E1]];
      rewrite E1; split; intros; lra.
Qed.

Lemma tick_moves_forward_witness :
  currentTime fast_page <= currentTime (tick 1000 fast_page)
                        <= maxTime (events fast_page).
Proof.
  apply (proj1 (tick_moves_forward fast_page 1000
                  ltac:(vm_compute; discriminate)
                  ltac:(vm_compute; discriminate)
                  ltac:(vm_compute; discriminate))).
Defined.

(** ** The cursor stays on the timeline *)

Lemma seek_in_range (st : Page) (t : Q) :
  0 <= maxTime (events st) ->
  0 <= currentTime (seek t st) <= maxTime (events st).
Proof.
  intros Hmax. unfold seek. simpl.
  set (m := maxTime (events st)) in *.
  destruct (Q.min_spec t m) as [[H1 E1] | [H1 E1]];
    destruct (Q.max_spec 0 (Qmin t m)) as [[H2 E2] | [H2 E2]]; lra.
Qed.

Lemma pause_in_range (st : Page) : in_range st -> in_range (pause st).
Proof.
  unfold in_range. destruct (pause_keeps st) as (-> & _ & -> & -> & _). auto.
Qed.

Lemma tick_in_range (st : Page) (now : Q) :
  in_range st -> not_before st now -> in_range (tick now st).
Proof.
  intros [Hc Hs] Hnow. unfold in_range.
  destruct (tick_keeps st now) as (-> & -> & _). split; [|exact Hs].
  destruct (playing st) eqn:Hp.
  - unfold not_before in Hnow.
    destruct (lastRealTime st) as [last|] eqn:Hl.
    + destruct (tick_running st now last Hp Hl) as (-> & _).
      assert (Hd : 0 <= (now - last) / 1000 * playbackSpeed st).
      { apply Qmult_le_0_compat; [|lra].
        unfold Qdiv. apply Qmult_le_0_compat; [lra | discriminate]. }
      destruct (Q.min_spec
                  (currentTime st + (now - last) / 1000 * playbackSpeed st)
                  (maxTime (events st))) as [[H1 E1] | [H1 E1]];
        rewrite E1; lra.
    + destruct (tick_first st now Hp Hl) as (-> & _). exact Hc.
  - unfold tick. rewrite Hp. exact Hc.
Qed.

Lemma play_in_range (st : Page) (now now' : Q) :
  in_range st -> now <= now' -> in_range (play now now' st).
Proof.
  intros Hr Hnow. unfold play. apply tick_in_range; [exact Hr | exact Hnow].
Qed.

Lemma speed_up_in_range (s : Q) :
  1 # 2 <= s <= 10 -> 1 # 2 <= Qmin (s * 2) 10 <= 10.
Proof.
  intros H. destruct (Q.min_spec (s * 2) 10) as [[H1 E1] | [H1 E1]]; lra.
Qed.

Lemma slow_down_in_range (s : Q) :
  1 # 2 <= s <= 10 -> 1 # 2 <= Qmax (s / 2) (1 # 2) <= 10.
Proof.
  intros H. assert (E : s / 2 == s * (1 # 2)) by (field; discriminate).
  destruct (Q.max_spec (s / 2) (1 # 2)) as [[H1 E1] | [H1 E1]]; lra.
Qed.

Lemma handleKeydown_in_range (key : string) (now now' : Q) (st : Page) :
  in_range st -> now <= now' -> in_range (handleKeydown key now now' st).
Proof.
  intros Hr Hnow. pose proof Hr as [Hc Hs]. unfold handleKeydown.
  assert (Hmax : 0 <= maxTime (events st)) by lra.
  destruct (String.eqb key " ").
  { destruct (playing st); [now apply pause_in_range | now apply play_in_range]. }
  destruct (String.eqb key "ArrowLeft").
  { split; [exact (seek_in_range st _ Hmax) | exact Hs]. }
  destruct (String.eqb key "ArrowRight").
  { split; [exact (seek_in_range st _ Hmax) | exact Hs]. }
  destruct (String.eqb key "+" || String.eqb key "=").
  { split; [exact Hc | now apply speed_up_in_range]. }
  destruct (String.eqb key "-").
  { split; [exact Hc | now apply slow_down_in_range]. }
  exact Hr.
Qed.

Lemma timelineKeydown_in_range (key : string) (st : Page) :
  in_range st -> in_range (timelineKeydown key st).
Proof.
  intros Hr. unfold timelineKeydown.
  assert (Hstep : forall t st', in_range st' -> in_range (seek t st')).
  { intros t st' [Hc Hs].
    assert (Hmax : 0 <= maxTime (events st')) by lra.
    split; [exact (seek_in_range st' _ Hmax) | exact Hs]. }
  destruct (String.eqb key "ArrowLeft"), (String.eqb key "ArrowRight");
    auto.
Qed.

Lemma timelineKeydown_keeps (key : string) (st : Page) :
  pending (timelineKeydown key st) = pending st
  /\ animationFrame (timelineKeydown key st) = animationFrame st
  /\ playing (timelineKeydown key st) = playing st
  /\ lastRealTime (timelineKeydown key st) = lastRealTime st.
Proof.
  unfold timelineKeydown.
  destruct (String.eqb key "ArrowLeft"), (String.eqb key "ArrowRight");
    auto.
Qed.

Lemma perform_in_range (a : Action) (st : Page) :
  in_range st -> timely a st -> in_range (perform a st).
Proof.
  intros Hr Ht. pose proof Hr as [Hc Hs].
  destruct a as [key now now' | now now' | x width | o | h now |
                 | key now now']; simpl in *.
  - now apply handleKeydown_in_range.
  - unfold togglePlay.
    destruct (playing st); [now apply pause_in_range | now apply play_in_range].
  - unfold handleTimelineClick. destruct (Qeq_bool width 0); [exact Hr|].
    assert (Hmax : 0 <= maxTime (events st)) by lra.
    split; [exact (seek_in_range st _ Hmax) | exact Hs].
  - split; [exact Hc|]. destruct o; simpl; split; discriminate.
  - unfold run_frame. destruct (existsb _ _); [|exact Hr].
    apply tick_in_range; [exact Hr | exact Ht].
  - now apply pause_in_range.
  - unfold focusedKeydown. apply handleKeydown_in_range; [|apply Ht].
    now apply timelineKeydown_in_range.
Qed.

Lemma run_in_range (acts : list Action) (st : Page) :
  in_range st -> timely_trace acts st -> in_range (run acts st).
Proof.
  revert st. induction acts as [|a acts IH]; intros st Hr Ht; simpl.
  - exact Hr.
  - destruct Ht as [Ha Hrest]. apply IH; [|exact Hrest].
    now apply perform_in_range.
Qed.

(** From a page whose cursor is on the timeline, [0 <= currentTime <=
    maxTime], and whose speed is in [[0.5,10]], every sequence of keys,
    button presses, track clicks, speed selections, animation frames and
    a teardown, with clock readings in order, leaves the cursor on the
    timeline and the speed in [[0.5,10]]. *)
Theorem cursor_stays_on_timeline (acts : list Action) (st : Page) :
  in_range st -> timely_trace acts st -> in_range (run acts st).
Proof.
  exact (run_in_range acts st).
Qed.

Lemma cursor_stays_on_timeline_witness :
  in_range (run [KeyDown "ArrowRight" 0 0; KeyDown "+" 0 0;
                 PlayButton 2000 2016; Frame 2 3000; TrackClick 30 10;
                 KeyDown "-" 4000 4000;
                 TimelineKeyDown "ArrowRight" 4000 4000; Destroy]
                (pause fast_page)).
Proof.
  apply cursor_stays_on_timeline.
  - split; split; vm_compute; discriminate.
  - vm_compute. repeat split; try discriminate; reflexivity.
Defined.

(** After any load into the page as created, of a log without negative
    [game_time], the cursor is on the timeline, and it stays there under
    every sequence of timely actions. *)
Theorem loaded_cursor_on_timeline (r : Response) (acts : list Action) :
  (forall evs e g,
     r = Body (Some evs) -> In e evs -> game_time e = Some g -> 0 <= g) ->
  timely_trace acts (fetchEvents r initial) ->
  in_range (run acts (fetchEvents r initial)).
Proof.
  intros Hlog Ht. apply run_in_range; [|exact Ht].
  assert (Hmax : 0 <= maxTime (events (fetchEvents r initial))).
  { apply maxTime_nonneg. intros e g Hin Hg.
    destruct r as [[m|] | s | m | [evs|]]; simpl in Hin; try destruct Hin.
    now apply (Hlog evs e g). }
  split.
  - assert (E : currentTime (fetchEvents r initial) = 0)
      by (destruct r as [[m|] | s | m | [evs|]]; reflexivity).
    rewrite E. lra.
  - assert (E : playbackSpeed (fetchEvents r initial) = 1)
      by (destruct r as [[m|] | s | m | [evs|]]; reflexivity).
    rewrite E. lra.
Qed.

Lemma loaded_cursor_on_timeline_witness :
  in_range (run [PlayButton 0 16; Frame 1 20000; KeyDown "ArrowLeft" 20000 20000]
                (fetchEvents (Body (Some [scenario_before; scenario_after]))
                             initial)).
Proof.
  apply loaded_cursor_on_timeline.
  - intros evs e g [= <-] Hin Hg. simpl in Hin.
    destruct Hin as [<- | [<- | []]]; injection Hg as <-; vm_compute;
      discriminate.
  - vm_compute. repeat split; try discriminate; reflexivity.
Defined.

(** ** Starting and stopping *)

Lemma handleKeydown_space (now now' : Q) (st : Page) :
  handleKeydown " " now now' st = togglePlay now now' st.
Proof. reflexivity. Qed.

(** The space key and the play button do the same.  On a playing page
    they stop the clock and leave the cursor; on a stopped page they
    start it, unless the first tick already reaches [maxTime]: then the
    cursor is at [maxTime] and the clock is stopped again. *)
Theorem toggle_play_pause (st : Page) (now now' : Q) :
  handleKeydown " " now now' st = togglePlay now now' st
  /\ (playing st = true ->
      playing (togglePlay now now' st) = false
      /\ currentTime (togglePlay now now' st) = currentTime st)
  /\ (playing st = false ->
      currentTime st + (now' - now) / 1000 * playbackSpeed st
        < maxTime (events st) ->
      playing (togglePlay now now' st) = true
      /\ lastRealTime (togglePlay now now' st) = Some now'
      /\ currentTime (togglePlay now now' st)
         == currentTime st + (now' - now) / 1000 * playbackSpeed st)
  /\ (playing st = false ->
      maxTime (events st)
        <= currentTime st + (now' - now) / 1000 * playbackSpeed st ->
      playing (togglePlay now now' st) = false
      /\ currentTime (togglePlay now now' st) == maxTime (events st)).
Proof.
  split; [reflexivity|].
  assert (Hplay : playing st = false ->
                  togglePlay now now' st = play now now' st).
  { intros H. unfold togglePlay. now rewrite H. }
  set (st1 := set_lastRealTime (Some now) (set_playing true st)).
  pose proof (tick_running st1 now' now eq_refl eq_refl) as Hrun.
  cbv zeta in Hrun. change (tick now' st1) with (play now now' st) in Hrun.
  change (currentTime st1) with (currentTime st) in Hrun.
  change (playbackSpeed st1) with (playbackSpeed st) in Hrun.
  change (events st1) with (events st) in Hrun.
  destruct Hrun as (Ec & El & Ep & _).
  split; [|split].
  - intros Hp. unfold togglePlay. rewrite Hp.
    split; [apply pause_playing | apply pause_keeps].
  - intros Hp Hlt. rewrite (Hplay Hp), Ec, El, Ep.
    destruct (Q.min_spec
                (currentTime st + (now' - now) / 1000 * playbackSpeed st)
                (maxTime (events st))) as [[H1 E1] | [H1 E1]]; [|lra].
    split; [|split; [reflexivity | exact E1]].
    apply negb_true_iff. destruct (Qle_bool _ _) eqn:E; [|reflexivity].
    apply Qle_bool_iff in E. lra.
  - intros Hp Hge. rewrite (Hplay Hp), Ec, Ep.
    destruct (Q.min_spec
                (currentTime st + (now' - now) / 1000 * playbackSpeed st)
                (maxTime (events st))) as [[H1 E1] | [H1 E1]]; [lra|].
    split; [|exact E1].
    apply negb_false_iff. apply Qle_bool_iff. lra.
Qed.

Lemma toggle_play_pause_witness :
  playing (togglePlay 0 16 (pause fast_page)) = true
  /\ playing (togglePlay 0 16 fast_page) = false.
Proof.
  destruct (toggle_play_pause (pause fast_page) 0 16) as (_ & _ & Hstart & _).
  destruct (toggle_play_pause fast_page 0 16) as (_ & Hstop & _).
  split.
  - apply Hstart; [reflexivity | vm_compute; reflexivity].
  - apply Hstop. reflexivity.
Defined.

(** ** Keys that undo each other *)

(** Doubling then halving the speed gives the speed back when doubling
    does not hit the ceiling of 10, and halving then doubling when halving
    does not hit the floor of 0.5. *)
Theorem speed_keys_round_trip (st : Page) (now now' : Q) :
  (playbackSpeed st <= 5 -> 1 # 2 <= playbackSpeed st ->
   playbackSpeed (handleKeydown "-" now now' (handleKeydown "+" now now' st))
   == playbackSpeed st)
  /\ (1 <= playbackSpeed st -> playbackSpeed st <= 10 ->
      playbackSpeed (handleKeydown "+" now now' (handleKeydown "-" now now' st))
      == playbackSpeed st)
  /\ (5 <= playbackSpeed st ->
      playbackSpeed (handleKeydown "+" now now' st) == 10)
  /\ (playbackSpeed st <= 1 ->
      playbackSpeed (handleKeydown "-" now now' st) == 1 # 2).
Proof.
  set (s := playbackSpeed st).
  assert (Eup : playbackSpeed (handleKeydown "+" now now' st) = Qmin (s * 2) 10)
    by reflexivity.
  assert (Edn : playbackSpeed (handleKeydown "-" now now' st)
                = Qmax (s / 2) (1 # 2)) by reflexivity.
  assert (Eud : playbackSpeed
                  (handleKeydown "-" now now' (handleKeydown "+" now now' st))
                = Qmax (Qmin (s * 2) 10 / 2) (1 # 2)) by reflexivity.
  assert (Edu : playbackSpeed
                  (handleKeydown "+" now now' (handleKeydown "-" now now' st))
                = Qmin (Qmax (s / 2) (1 # 2) * 2) 10) by reflexivity.
  assert (Eh : forall x, x / 2 == x * (1 # 2)) by (intros; field; discriminate).
  pose proof (Eh s) as Eh1.
  pose proof (Eh (Qmin (s * 2) 10)) as Eh2.
  repeat split.
  - intros H1 H2. rewrite Eud.
    destruct (Q.min_spec (s * 2) 10) as [[Ha Ea] | [Ha Ea]];
      destruct (Q.max_spec (Qmin (s * 2) 10 / 2) (1 # 2)) as [[Hb Eb] | [Hb Eb]];
      lra.
  - intros H1 H2. rewrite Edu.
    destruct (Q.max_spec (s / 2) (1 # 2)) as [[Ha Ea] | [Ha Ea]];
      destruct (Q.min_spec (Qmax (s / 2) (1 # 2) * 2) 10) as [[Hb Eb] | [Hb Eb]];
      lra.
  - intros H. rewrite Eup.
    destruct (Q.min_spec (s * 2) 10) as [[Ha Ea] | [Ha Ea]]; lra.
  - intros H. rewrite Edn.
    destruct (Q.max_spec (s / 2) (1 # 2)) as [[Ha Ea] | [Ha Ea]]; lra.
Qed.

Lemma speed_keys_round_trip_witness :
  playbackSpeed (handleKeydown "-" 0 0 (handleKeydown "+" 0 0 fast_page))
  == playbackSpeed fast_page.
Proof.
  apply (proj1 (speed_keys_round_trip fast_page 0 0)); vm_compute; discriminate.
Defined.

(** The arrow keys stop at the ends of the timeline: a seek back from a
    cursor of at most five seconds ends at 0, and a seek forward from
    within five seconds of the end ends at [maxTime].  While the timeline
    has the focus an arrow key runs two handlers, the timeline's and the
    window's, and so does what two presses do without the focus; it
    stops at the ends all the same.  Any other key does with the focus
    what it does without. *)
Theorem arrow_keys_saturate (st : Page) (now now' : Q) :
  0 <= maxTime (events st) ->
  (currentTime st <= 5 ->
   currentTime (handleKeydown "ArrowLeft" now now' st) == 0
   /\ currentTime (focusedKeydown "ArrowLeft" now now' st) == 0)
  /\ (maxTime (events st) <= currentTime st + 5 ->
      currentTime (handleKeydown "ArrowRight" now now' st)
      == maxTime (events st)
      /\ currentTime (focusedKeydown "ArrowRight" now now' st)
         == maxTime (events st))
  /\ focusedKeydown "ArrowLeft" now now' st
     = handleKeydown "ArrowLeft" now now'
         (handleKeydown "ArrowLeft" now now' st)
  /\ focusedKeydown "ArrowRight" now now' st
     = handleKeydown "ArrowRight" now now'
         (handleKeydown "ArrowRight" now now' st)
  /\ (forall key,
        key <> "ArrowLeft"%string -> key <> "ArrowRight"%string ->
        focusedKeydown key now now' st = handleKeydown key now now' st).
Proof.
  intros Hmax.
  set (c := currentTime st). set (M := maxTime (events st)) in *.
  assert (El : currentTime (handleKeydown "ArrowLeft" now now' st)
               = Qmax 0 (Qmin (c - 5) M)) by reflexivity.
  assert (Er : currentTime (handleKeydown "ArrowRight" now now' st)
               = Qmax 0 (Qmin (c + 5) M)) by reflexivity.
  assert (Ell : currentTime (focusedKeydown "ArrowLeft" now now' st)
                = Qmax 0 (Qmin (Qmax 0 (Qmin (c - 5) M) - 5) M))
    by reflexivity.
  assert (Err : currentTime (focusedKeydown "ArrowRight" now now' st)
                = Qmax 0 (Qmin (Qmax 0 (Qmin (c + 5) M) + 5) M))
    by reflexivity.
  split; [|split; [|split; [reflexivity|split; [reflexivity|]]]].
  - intros H. rewrite El, Ell.
    destruct (Q.min_spec (c - 5) M) as [[Ha Ea] | [Ha Ea]];
      destruct (Q.max_spec 0 (Qmin (c - 5) M)) as [[Hb Eb] | [Hb Eb]];
      destruct (Q.min_spec (Qmax 0 (Qmin (c - 5) M) - 5) M)
        as [[Hc Ec] | [Hc Ec]];
      destruct (Q.max_spec 0 (Qmin (Qmax 0 (Qmin (c - 5) M) - 5) M))
        as [[Hd Ed] | [Hd Ed]]; split; lra.
  - intros H. rewrite Er, Err.
    destruct (Q.min_spec (c + 5) M) as [[Ha Ea] | [Ha Ea]];
      destruct (Q.max_spec 0 (Qmin (c + 5) M)) as [[Hb Eb] | [Hb Eb]];
      destruct (Q.min_spec (Qmax 0 (Qmin (c + 5) M) + 5) M)
        as [[Hc Ec] | [Hc Ec]];
      destruct (Q.max_spec 0 (Qmin (Qmax 0 (Qmin (c + 5) M) + 5) M))
        as [[Hd Ed] | [Hd Ed]]; split; lra.
  - intros key Hl Hr. unfold focusedKeydown, timelineKeydown.
    apply String.eqb_neq in Hl, Hr. now rewrite Hl, Hr.
Qed.

Lemma arrow_keys_saturate_witness :
  currentTime (handleKeydown "ArrowLeft" 0 0 fast_page) == 0
  /\ currentTime (focusedKeydown "ArrowLeft" 0 0 fast_page) == 0.
Proof.
  apply (proj1 (arrow_keys_saturate fast_page 0 0
                  ltac:(vm_compute; discriminate))).
  vm_compute. discriminate.
Defined.

(** ** Pending animation frames *)

Lemma pause_clears (st : Page) : one_frame st -> pending (pause st) = [].
Proof.
  intros [H | (h & Hh & Ha & Hp)]; unfold pause; simpl.
  - destruct (animationFrame st) as [[|h]|]; simpl; rewrite H; reflexivity.
  - rewrite Ha. destruct h as [|h]; [congruence|]. simpl. rewrite Hp. simpl.
    now rewrite Nat.eqb_refl.
Qed.

Lemma tick_one_frame (st : Page) (now : Q) :
  pending st = [] -> one_frame (tick now st).
Proof.
  intros Hp. unfold tick. destruct (playing st); simpl; [|now left].
  right. exists (S (frameCount st)). split; [discriminate|].
  destruct (lastRealTime st) as [last|]; simpl.
  - destruct (Qle_bool _ _); simpl.
    + unfold pause. simpl.
      destruct (animationFrame st) as [[|h]|]; simpl; rewrite Hp; auto.
    + rewrite Hp. auto.
  - rewrite Hp. auto.
Qed.

Lemma run_frame_one_frame (st : Page) (h : nat) (now : Q) :
  one_frame st -> one_frame (run_frame h now st).
Proof.
  intros Hone. unfold run_frame.
  destruct (existsb (Nat.eqb h) (pending st)) eqn:E; [|exact Hone].
  apply tick_one_frame. simpl.
  destruct Hone as [H | (h0 & _ & _ & H)]; rewrite H in *; simpl in *.
  - reflexivity.
  - rewrite orb_false_r in E. apply Nat.eqb_eq in E. subst h0.
    now rewrite Nat.eqb_refl.
Qed.

Lemma handleKeydown_frames (key : string) (now now' : Q) (st : Page) :
  String.eqb key " " = false ->
  pending (handleKeydown key now now' st) = pending st
  /\ animationFrame (handleKeydown key now now' st) = animationFrame st.
Proof.
  intros H. unfold handleKeydown. rewrite H.
  destruct (String.eqb key "ArrowLeft"); [now split|].
  destruct (String.eqb key "ArrowRight"); [now split|].
  destruct (String.eqb key "+" || String.eqb key "="); [now split|].
  destruct (String.eqb key "-"); now split.
Qed.

Lemma one_frame_same (st st' : Page) :
  pending st' = pending st -> animationFrame st' = animationFrame st ->
  one_frame st -> one_frame st'.
Proof.
  unfold one_frame. intros -> ->. auto.
Qed.

Lemma togglePlay_one_frame (st : Page) (now now' : Q) :
  one_frame st ->
  (playing st = false -> pending st = []) ->
  one_frame (togglePlay now now' st).
Proof.
  intros Hone Hstart. unfold togglePlay. destruct (playing st).
  - left. now apply pause_clears.
  - unfold play. apply tick_one_frame. simpl. now apply Hstart.
Qed.

(** The page requests frames one at a time: when at most one frame is
    pending and [animationFrame] holds its handle, this is so again after
    any action, provided that [play] is not started while a frame is
    still pending; and then [pause], and so the teardown of the page,
    leaves no frame pending. *)
Theorem at_most_one_frame (a : Action) (st : Page) :
  one_frame st ->
  (starts_play a st = true -> pending st = []) ->
  one_frame (perform a st)
  /\ pending (pause (perform a st)) = []
  /\ pending (onDestroy st) = [].
Proof.
  intros Hone Hstart.
  assert (H : one_frame (perform a st)).
  { destruct a as [key now now' | now now' | x width | o | h now |
                   | key now now']; simpl in *.
    - destruct (String.eqb key " ") eqn:Ek.
      + apply String.eqb_eq in Ek. subst key.
        change (one_frame (togglePlay now now' st)).
        apply togglePlay_one_frame; [exact Hone|].
        intros Hp. apply Hstart. now rewrite Hp.
      + destruct (handleKeydown_frames key now now' st Ek) as [E1 E2].
        now apply (one_frame_same st).
    - apply togglePlay_one_frame; [exact Hone|].
      intros Hp. apply Hstart. now rewrite Hp.
    - unfold handleTimelineClick. now destruct (Qeq_bool width 0).
    - exact Hone.
    - now apply run_frame_one_frame.
    - left. now apply pause_clears.
    - destruct (timelineKeydown_keeps key st) as (Ep & Ea & Epl & _).
      assert (Hone' : one_frame (timelineKeydown key st))
        by now apply (one_frame_same st).
      unfold focusedKeydown.
      destruct (String.eqb key " ") eqn:Ek.
      + apply String.eqb_eq in Ek. subst key.
        change (one_frame (togglePlay now now' (timelineKeydown " " st))).
        apply togglePlay_one_frame; [exact Hone'|].
        rewrite Epl, Ep. intros Hp. apply Hstart. now rewrite Hp.
      + destruct (handleKeydown_frames key now now'
                    (timelineKeydown key st) Ek) as [E1 E2].
        now apply (one_frame_same (timelineKeydown key st)). }
  split; [exact H|]. split; now apply pause_clears.
Qed.

Lemma at_most_one_frame_witness :
  one_frame (perform (Frame 2 1000) (play 0 16 (pause fast_page)))
  /\ pending (pause (perform (Frame 2 1000) (play 0 16 (pause fast_page)))) = [].
Proof.
  destruct (at_most_one_frame (Frame 2 1000) (play 0 16 (pause fast_page)))
    as (H1 & H2 & _).
  - right. exists 2%nat. repeat split; try discriminate; reflexivity.
  - discriminate.
  - split; [exact H1 | exact H2].
Defined.

(** ** The track *)

Lemma progress_bounds (st : Page) :
  (0 <= currentTime st <= maxTime (events st) ->
   0 <= progressPercent st <= 100)
  /\ (maxTime (events st) <= 0 -> progressPercent st = 0).
Proof.
  unfold progressPercent. split.
  - intros Hc. destruct (JsNum.ltb 0 (maxTime (events st))) eqn:E; [|lra].
    apply ltb_iff in E.
    assert (H0 : 0 <= currentTime st / maxTime (events st))
      by (apply Qle_shift_div_l; lra).
    assert (H1 : currentTime st / maxTime (events st) <= 1)
      by (apply Qle_shift_div_r; lra).
    lra.
  - intros H. now rewrite (proj2 (ltb_false_iff _ _) H).
Qed.

(** The progress bar is never wider than the track: with the cursor on
    the timeline it is between 0 and 100 per cent, and it is 0 when
    [maxTime] is not positive, where the page does not divide. *)
Theorem progress_within_track (st : Page) :
  (0 <= currentTime st <= maxTime (events st) ->
   0 <= progressPercent st <= 100)
  /\ (maxTime (events st) <= 0 -> progressPercent st = 0).
Proof.
  unfold progressPercent. split.
  - intros Hc. destruct (JsNum.ltb 0 (maxTime (events st))) eqn:E; [|lra].
    apply ltb_iff in E.
    assert (H0 : 0 <= currentTime st / maxTime (events st))
      by (apply Qle_shift_div_l; lra).
    assert (H1 : currentTime st / maxTime (events st) <= 1)
      by (apply Qle_shift_div_r; lra).
    lra.
  - intros H. now rewrite (proj2 (ltb_false_iff _ _) H).
Qed.

Lemma progress_within_track_witness : 0 <= progressPercent fast_page <= 100.
Proof.
  apply (proj1 (progress_within_track fast_page)).
  split; vm_compute; discriminate.
Defined.

(** A click on the track, at [x] of its [width], puts the cursor at
    [x / width * maxTime] without clamping and the progress bar within
    the track, and does not start or stop the clock; a click at the left
    end puts the cursor and the bar at 0, and a click at the right end
    puts the cursor at [maxTime] and the bar at 100 per cent. *)
Theorem timeline_click_lands (st : Page) (x width : Q) :
  0 < width -> 0 <= x <= width -> 0 <= maxTime (events st) ->
  exists st',
    handleTimelineClick x width st = Some st'
    /\ currentTime st' == x / width * maxTime (events st)
    /\ 0 <= progressPercent st' <= 100
    /\ playing st' = playing st
    /\ events st' = events st
    /\ (x == 0 -> currentTime st' == 0 /\ progressPercent st' == 0)
    /\ (x == width ->
        currentTime st' == maxTime (events st)
        /\ (0 < maxTime (events st) -> progressPercent st' == 100)).
Proof.
  intros Hw Hx Hmax. unfold handleTimelineClick.
  assert (E : Qeq_bool width 0 = false).
  { destruct (Qeq_bool width 0) eqn:E; [|reflexivity].
    apply Qeq_bool_iff in E. lra. }
  rewrite E. eexists. split; [reflexivity|].
  set (M := maxTime (events st)) in *.
  assert (H0 : 0 <= x / width) by (apply Qle_shift_div_l; lra).
  assert (H1 : x / width <= 1) by (apply Qle_shift_div_r; lra).
  set (p := x / width) in *.
  assert (HpM : 0 <= p * M) by (apply Qmult_le_0_compat; lra).
  assert (HpM' : p * M <= M) by nra.
  assert (Hc : currentTime (seek (p * M) st) == p * M).
  { unfold seek. simpl. fold M.
    destruct (Q.min_spec (p * M) M) as [[Ha Ea] | [Ha Ea]];
      destruct (Q.max_spec 0 (Qmin (p * M) M)) as [[Hb Eb] | [Hb Eb]]; lra. }
  assert (Hprog : forall q, p == q ->
                    0 < M -> progressPercent (seek (p * M) st) == q * 100).
  { intros q Hq HM. unfold progressPercent.
    change (events (seek (p * M) st)) with (events st). fold M.
    rewrite (proj2 (ltb_iff 0 M) HM), Hc, Hq. field. lra. }
  assert (Hzero : M <= 0 -> progressPercent (seek (p * M) st) == 0).
  { intros HM. unfold progressPercent.
    change (events (seek (p * M) st)) with (events st). fold M.
    rewrite (proj2 (ltb_false_iff _ _) HM). reflexivity. }
  split; [exact Hc|]. split; [|split; [reflexivity|split; [reflexivity|]]].
  - apply (proj1 (progress_bounds (seek (p * M) st))).
    change (events (seek (p * M) st)) with (events st). fold M. lra.
  - split.
    + intros Ex.
      assert (Ep : p == 0) by (unfold p; rewrite Ex; field; lra).
      split; [rewrite Hc, Ep; ring|].
      destruct (Qlt_le_dec 0 M) as [HM | HM].
      * rewrite (Hprog 0 Ep HM). ring.
      * now apply Hzero.
    + intros Ex.
      assert (Ep : p == 1) by (unfold p; rewrite Ex; field; lra).
      split; [rewrite Hc, Ep; ring|].
      intros HM. rewrite (Hprog 1 Ep HM). ring.
Qed.

Lemma timeline_click_lands_witness :
  exists st',
    handleTimelineClick 120 120 fast_page = Some st'
    /\ currentTime st' == 60
    /\ progressPercent st' == 100.
Proof.
  destruct (timeline_click_lands fast_page 120 120)
    as (st' & Hclick & _ & _ & _ & _ & _ & Hend).
  - vm_compute. reflexivity.
  - split; vm_compute; discriminate.
  - vm_compute. discriminate.
  - exists st'. split; [exact Hclick|].
    destruct (Hend ltac:(reflexivity)) as [Hc Hp].
    split; [exact Hc|]. apply Hp. vm_compute. reflexivity.
Defined.

Lemma timelineEvents_from_event (evs : list Event) (m : Marker) :
  In m (timelineEvents evs) ->
  exists e, In e evs /\ time m = game_time e.
Proof.
  intros H. unfold timelineEvents in H.
  apply (Permutation_in _ (Permutation_sym (sort_perm by_time _))) in H.
  unfold pushed_markers, conflicts in H. apply in_app_or in H.
  destruct H as [H | H]; apply in_map_iff in H;
    destruct H as (e & <- & He); apply filter_In in He;
    exists e; split; try apply He; reflexivity.
Qed.

(** With no negative [game_time] in the log, every marker with a time is
    drawn on the track, between 0 and 100 per cent. *)
Theorem markers_within_track (st : Page) (m : Marker) (g : Q) :
  (forall e x, In e (events st) -> game_time e = Some x -> 0 <= x) ->
  In m (timelineEvents (events st)) ->
  time m = Some g ->
  exists p, markerPercent st m = Some p /\ 0 <= p <= 100.
Proof.
  intros Hlog Hin Hg.
  destruct (timelineEvents_from_event _ _ Hin) as (e & He & Et).
  rewrite Hg in Et. symmetry in Et.
  pose proof (Hlog e g He Et) as H0.
  destruct (maxTime_bounds (events st)) as (_ & _ & Hub & _).
  pose proof (Hub e g He Et) as H1.
  unfold markerPercent. rewrite Hg.
  destruct (JsNum.ltb 0 (maxTime (events st))) eqn:E.
  - apply ltb_iff in E. simpl.
    assert (Ez : Qeq_bool (maxTime (events st)) 0 = false).
    { destruct (Qeq_bool _ 0) eqn:Ez; [|reflexivity].
      apply Qeq_bool_iff in Ez. lra. }
    rewrite Ez. eexists. split; [reflexivity|].
    assert (Ha : 0 <= g / maxTime (events st))
      by (apply Qle_shift_div_l; lra).
    assert (Hb : g / maxTime (events st) <= 1)
      by (apply Qle_shift_div_r; lra).
    lra.
  - exists 0. split; [reflexivity | lra].
Qed.

Lemma markers_within_track_witness :
  exists p,
    markerPercent (mkPage sample_log false None false 0 1 None None [] 0)
                  (ils_marker (bare_event (Some "ils_clearance"%string)
                                          (Some 3)))
    = Some p
    /\ 0 <= p <= 100.
Proof.
  apply (markers_within_track
           (mkPage sample_log false None false 0 1 None None [] 0) _ 3).
  - intros e x Hin Hx. simpl in Hin.
    repeat (destruct Hin as [<- | Hin];
            [injection Hx as <-; vm_compute; discriminate|]).
    destruct Hin.
  - vm_compute. auto.
  - reflexivity.
Defined.

(** ** The decision log and the conflict panel *)

Lemma slice_last_length {A} (n : nat) (l : list A) :
  List.length (slice_last n l) = Nat.min n (List.length l).
Proof.
  unfold slice_last. rewrite length_skipn. lia.
Qed.

Lemma slice_last_suffix {A} (n : nat) (l : list A) :
  l = firstn (List.length l - n) l ++ slice_last n l.
Proof.
  unfold slice_last. now rewrite firstn_skipn.
Qed.

Lemma slice_last_all {A} (n : nat) (l : list A) :
  (List.length l <= n)%nat -> slice_last n l = l.
Proof.
  intros H. unfold slice_last.
  replace (List.length l - n)%nat with 0%nat by lia. reflexivity.
Qed.

(** The decision log shows at most twenty decisions, each one a decision
    of the log at or before the cursor; they are the latest such
    decisions, newest first, and all of them when there are at most
    twenty. *)
Theorem currentDecisions_latest (st : Page) :
  let upto :=
    filter (fun d => JsNum.le (game_time d) (currentTime st))
           (decisions (events st)) in
  List.length (currentDecisions st) = Nat.min 20 (List.length upto)
  /\ (forall d, In d (currentDecisions st) ->
                In d (events st)
                /\ has_type "decision" d = true
                /\ JsNum.le (game_time d) (currentTime st) = true)
  /\ (exists older, upto = older ++ rev (currentDecisions st))
  /\ ((List.length upto <= 20)%nat -> currentDecisions st = rev upto).
Proof.
  intros upto. unfold currentDecisions. fold upto.
  split; [|split; [|split]].
  - rewrite length_rev. apply slice_last_length.
  - intros d Hd. apply in_rev in Hd.
    assert (Hin : In d upto).
    { rewrite (slice_last_suffix 20 upto). apply in_or_app. now right. }
    unfold upto, decisions in Hin.
    apply filter_In in Hin. destruct Hin as [Hin Hle].
    apply filter_In in Hin. destruct Hin as [Hin Hty]. auto.
  - exists (firstn (List.length upto - 20) upto).
    rewrite rev_involutive. apply slice_last_suffix.
  - intros H. now rewrite slice_last_all.
Qed.

Lemma currentDecisions_latest_witness :
  In (bare_event (Some "decision"%string) (Some 1))
     (currentDecisions
        (mkPage [bare_event (Some "decision"%string) (Some 1);
                 bare_event (Some "decision"%string) (Some 7)]
                false None false 5 1 None None [] 0))
  /\ has_type "decision" (bare_event (Some "decision"%string) (Some 1)) = true.
Proof.
  assert (Hin : In (bare_event (Some "decision"%string) (Some 1))
                   (currentDecisions
                      (mkPage [bare_event (Some "decision"%string) (Some 1);
                               bare_event (Some "decision"%string) (Some 7)]
                              false None false 5 1 None None [] 0)))
    by (vm_compute; auto).
  split; [exact Hin|].
  apply (proj1 (proj2 (currentDecisions_latest
                         (mkPage [bare_event (Some "decision"%string) (Some 1);
                                  bare_event (Some "decision"%string) (Some 7)]
                                 false None false 5 1 None None [] 0)))
           _ Hin).
Defined.

Lemma filter_filter_weaker {A} (p q : A -> bool) (l : list A) :
  (forall x, p x = true -> q x = true) ->
  filter p (filter q l) = filter p l.
Proof.
  intros H. induction l as [|x l IH]; simpl; [reflexivity|].
  destruct (q x) eqn:Eq; simpl.
  - now rewrite IH.
  - destruct (p x) eqn:Ep; [|exact IH].
    apply H in Ep. congruence.
Qed.

(** The conflict panel only grows as the cursor advances over the same
    log: the conflicts shown at an earlier cursor are those shown at a
    later one that are at or before the earlier cursor, in the same
    order. *)
Theorem shown_conflicts_grow (st1 st2 : Page) :
  events st1 = events st2 ->
  currentTime st1 <= currentTime st2 ->
  shownConflicts st1
  = filter (fun c => JsNum.le (game_time c) (currentTime st1))
           (shownConflicts st2)
  /\ forall c, In c (shownConflicts st1) -> In c (shownConflicts st2).
Proof.
  intros Hev Hle.
  assert (E : shownConflicts st1
              = filter (fun c => JsNum.le (game_time c) (currentTime st1))
                       (shownConflicts st2)).
  { unfold shownConflicts. rewrite Hev. symmetry.
    apply filter_filter_weaker. intros c.
    destruct (game_time c) as [g|]; simpl; [|discriminate].
    rewrite !Qle_bool_iff. lra. }
  split; [exact E|].
  intros c Hc. rewrite E in Hc. now apply filter_In in Hc.
Qed.

Lemma shown_conflicts_grow_witness :
  In (bare_event (Some "conflict"%string) (Some 3))
     (shownConflicts (mkPage sample_log false None false 5 1 None None [] 0)).
Proof.
  apply (proj2 (shown_conflicts_grow
                  (mkPage sample_log false None false 3 1 None None [] 0)
                  (mkPage sample_log false None false 5 1 None None [] 0)
                  eq_refl ltac:(vm_compute; discriminate))).
  vm_compute. auto.
Defined.

(** ** The empty log *)

(** With an empty event list the page shows nothing and the transport
    is inert: [maxTime] is 0, there is no aircraft, marker, decision or
    conflict, the progress bar is empty, every seek ends at 0, and [play]
    from a cursor at or after 0 stops at once with the cursor at 0. *)
Theorem empty_log_is_inert (st : Page) :
  events st = [] ->
  maxTime (events st) = 0
  /\ currentAircraft st = []
  /\ timelineEvents (events st) = []
  /\ currentDecisions st = []
  /\ shownConflicts st = []
  /\ progressPercent st = 0
  /\ (forall t, currentTime (seek t st) == 0)
  /\ (forall now now',
        0 <= currentTime st -> 0 <= playbackSpeed st -> now <= now' ->
        playing (play now now' st) = false
        /\ currentTime (play now now' st) == 0).
Proof.
  intros He.
  unfold currentAircraft, currentDecisions, shownConflicts, progressPercent.
  rewrite He.
  do 6 (split; [reflexivity|]). split.
  - intros t. unfold seek. simpl. rewrite He. change (maxTime []) with 0.
    destruct (Q.min_spec t 0) as [[Ha Ea] | [Ha Ea]];
      destruct (Q.max_spec 0 (Qmin t 0)) as [[Hb Eb] | [Hb Eb]]; lra.
  - intros now now' Hc Hs Hnow.
    set (st1 := set_lastRealTime (Some now) (set_playing true st)).
    destruct (tick_running st1 now' now eq_refl eq_refl) as (Ec & _ & Ep & _).
    cbv zeta in Ec, Ep.
    change (tick now' st1) with (play now now' st) in Ec, Ep.
    change (events st1) with (events st) in Ec, Ep.
    change (currentTime st1) with (currentTime st) in Ec, Ep.
    change (playbackSpeed st1) with (playbackSpeed st) in Ec, Ep.
    rewrite He in Ec, Ep. change (maxTime []) with 0 in Ec, Ep.
    rewrite Ec, Ep.
    assert (Hd : 0 <= (now' - now) / 1000 * playbackSpeed st).
    { apply Qmult_le_0_compat; [|exact Hs].
      unfold Qdiv. apply Qmult_le_0_compat; [lra | discriminate]. }
    destruct (Q.min_spec
                (currentTime st + (now' - now) / 1000 * playbackSpeed st) 0)
      as [[Ha Ea] | [Ha Ea]]; [lra|].
    split; [|exact Ea].
    apply negb_false_iff. apply Qle_bool_iff. lra.
Qed.

Lemma empty_log_is_inert_witness :
  currentAircraft (fetchEvents (NotOk "Not Found") loaded_page) = []
  /\ playing (play 0 16 (fetchEvents (NotOk "Not Found") initial)) = false.
Proof.
  destruct (empty_log_is_inert (fetchEvents (NotOk "Not Found") loaded_page)
              eq_refl) as (_ & Hac & _).
  destruct (empty_log_is_inert (fetchEvents (NotOk "Not Found") initial)
              eq_refl) as (_ & _ & _ & _ & _ & _ & _ & Hplay).
  split; [exact Hac|].
  apply (Hplay 0 16); vm_compute; discriminate.
Defined.

(** ** Records with the same callsign *)

Lemma get_set {V} (c k : string) (v : V) (m : JsMap.t V) :
  JsMap.get c (JsMap.set k v m)
  = if String.eqb c k then Some v else JsMap.get c m.
Proof.
  induction m as [|[k' v'] m IH]; simpl.
  - reflexivity.
  - destruct (String.eqb_spec k k') as [-> | Hkk]; simpl.
    + destruct (String.eqb c k'); reflexivity.
    + rewrite IH. destruct (String.eqb_spec c k') as [-> | Hck].
      * destruct (String.eqb_spec k' k); [congruence | reflexivity].
      * reflexivity.
Qed.

Lemma find_app {A} (p : A -> bool) (l1 l2 : list A) :
  find p (l1 ++ l2)
  = match find p l1 with Some x => Some x | None => find p l2 end.
Proof.
  induction l1 as [|x l1 IH]; simpl; [reflexivity|].
  now destruct (p x).
Qed.

Lemma fold_set_get {V} (c : string) (es : list (string * V)) (m : JsMap.t V) :
  JsMap.get c (fold_left (fun m e => JsMap.set (fst e) (snd e) m) es m)
  = match find (fun e => String.eqb c (fst e)) (rev es) with
    | Some e => Some (snd e)
    | None => JsMap.get c m
    end.
Proof.
  revert m. induction es as [|e es IH]; intros m; simpl; [reflexivity|].
  rewrite IH, find_app, get_set. simpl.
  destruct (find _ (rev es)); [reflexivity|].
  now destruct (String.eqb c (fst e)).
Qed.

(** In a callsign map the record of a callsign is the last record of the
    list with that callsign, and there is none when the list has none: a
    later record replaces an earlier one. *)
Theorem callsign_map_last_wins (l : list Aircraft) (c : string) :
  JsMap.get c (callsign_map l)
  = find (fun a => String.eqb c (callsign a)) (rev l).
Proof.
  unfold callsign_map, JsMap.of_entries. rewrite fold_set_get.
  rewrite <- map_rev. simpl.
  induction (rev l) as [|a r IH]; simpl; [reflexivity|].
  destruct (String.eqb c (callsign a)); [reflexivity | exact IH].
Qed.

(** ** The time display *)

Lemma Qfloor_unique (x : Q) (k : Z) :
  inject_Z k <= x -> x < inject_Z (k + 1) -> Qfloor x = k.
Proof.
  intros Hlo Hhi.
  pose proof (Qfloor_le x) as H1. pose proof (Qlt_floor x) as H2.
  assert (Ha : (Qfloor x < k + 1)%Z) by (rewrite Zlt_Qlt; lra).
  assert (Hb : (k < Qfloor x + 1)%Z) by (rewrite Zlt_Qlt; lra).
  lia.
Qed.

Lemma floor_div_mod_60 (s : Q) :
  0 <= s ->
  Qfloor (s / 60) = (Qfloor s / 60)%Z
  /\ Qfloor (s - 60 * inject_Z (Qfloor (s / 60))) = (Qfloor s mod 60)%Z.
Proof.
  intros Hs. set (m := Qfloor (s / 60)). set (n := Qfloor s).
  pose proof (Qfloor_le (s / 60)) as Hm1. pose proof (Qlt_floor (s / 60)) as Hm2.
  pose proof (Qfloor_le s) as Hn1. pose proof (Qlt_floor s) as Hn2.
  fold m in Hm1, Hm2. fold n in Hn1, Hn2.
  rewrite inject_Z_plus in Hm2, Hn2. change (inject_Z 1) with 1 in Hm2, Hn2.
  assert (Es : s == 60 * (s / 60)) by (field; discriminate).
  assert (Hlo : 60 * inject_Z m <= s) by lra.
  assert (Hhi : s < 60 * inject_Z m + 60) by lra.
  assert (E60 : inject_Z (60 * m) == 60 * inject_Z m)
    by (rewrite inject_Z_mult; reflexivity).
  assert (H1 : (60 * m <= n)%Z).
  { rewrite <- (Qfloor_Z (60 * m)). apply Qfloor_resp_le. lra. }
  assert (H2 : (n < 60 * m + 60)%Z).
  { rewrite Zlt_Qlt, inject_Z_plus. change (inject_Z 60) with 60. lra. }
  assert (Ediv : (n / 60 = m)%Z).
  { symmetry. apply (Z.div_unique n 60 m (n - 60 * m)); lia. }
  assert (Emod : (n mod 60 = n - 60 * m)%Z).
  { symmetry. apply (Z.mod_unique n 60 m (n - 60 * m)); lia. }
  split; [now symmetry|]. rewrite Emod.
  apply Qfloor_unique.
  - unfold Zminus. rewrite inject_Z_plus, inject_Z_opp. lra.
  - unfold Zminus. rewrite !inject_Z_plus, inject_Z_opp.
    change (inject_Z 1) with 1. lra.
Qed.

Lemma formatTime_parts (s : Q) :
  0 <= s ->
  formatTime (Some s)
  = (show_int (Qfloor s / 60) ++ ":"
     ++ padStart2 (show_int (Qfloor s mod 60)))%string.
Proof.
  intros Hs. unfold formatTime, JsNum.div, JsNum.rem, js_floor.
  change (Qeq_bool 60 0) with false. cbv iota.
  cbn [option_map show_number].
  assert (Hq : 0 <= s / 60) by (apply Qle_shift_div_l; lra).
  rewrite (trunc_nonneg_floor _ Hq).
  destruct (floor_div_mod_60 s Hs) as [Ed Em].
  rewrite Em, Ed. reflexivity.
Qed.

Lemma read_show_int (z : Z) : read_int (show_int z) = Some z.
Proof.
  unfold read_int, show_int.
  rewrite DecimalString.NilZero.isi.
  - simpl. now rewrite DecimalZ.of_to.
  - destruct z; simpl; try discriminate.
    intros [= H]. now apply DecimalPos.Unsigned.to_uint_nonnil in H.
  - destruct z; simpl; try discriminate.
    intros [= H]. now apply DecimalPos.Unsigned.to_uint_nonnil in H.
Qed.

Lemma seconds_two_digits (r : Z) :
  (0 <= r < 60)%Z ->
  String.length (padStart2 (show_int r)) = 2%nat
  /\ read_int (padStart2 (show_int r)) = Some r.
Proof.
  intros H. rewrite <- (Z2Nat.id r) by lia.
  assert (Hn : (Z.to_nat r < 60)%nat) by lia.
  generalize dependent (Z.to_nat r). clear H. intros n Hn.
  do 60 (destruct n as [|n]; [vm_compute; auto|]). lia.
Qed.

Lemma string_length_append (a b : string) :
  String.length (a ++ b) = (String.length a + String.length b)%nat.
Proof.
  induction a as [|c a IH]; simpl; [reflexivity | now rewrite IH].
Qed.

Lemma append_same_suffix_length (a a' b b' : string) :
  (a ++ b = a' ++ b')%string ->
  String.length b = String.length b' ->
  a = a' /\ b = b'.
Proof.
  revert a'. induction a as [|c a IH]; intros [|c' a'] H Hl; simpl in H.
  - now split.
  - exfalso. apply (f_equal String.length) in H. simpl in H.
    rewrite string_length_append in H. lia.
  - exfalso. apply (f_equal String.length) in H. simpl in H.
    rewrite string_length_append in H. lia.
  - injection H as -> H. destruct (IH a' H Hl) as [-> ->]. now split.
Qed.

(** For times that are not negative and below [2^53] seconds,
    [formatTime] prints the whole minutes, a colon and the remaining
    whole seconds on two digits; so two times are printed alike exactly
    when they are in the same whole second. *)
Theorem formatTime_whole_seconds (s1 s2 : Q) :
  printable s1 -> printable s2 ->
  formatTime (Some s1)
  = (show_int (Qfloor s1 / 60) ++ ":"
     ++ padStart2 (show_int (Qfloor s1 mod 60)))%string
  /\ String.length (padStart2 (show_int (Qfloor s1 mod 60))) = 2%nat
  /\ (formatTime (Some s1) = formatTime (Some s2) <-> Qfloor s1 = Qfloor s2).
Proof.
  intros [H1 _] [H2 _].
  pose proof (formatTime_parts s1 H1) as E1.
  pose proof (formatTime_parts s2 H2) as E2.
  assert (Hr1 : (0 <= Qfloor s1 mod 60 < 60)%Z) by (apply Z.mod_pos_bound; lia).
  assert (Hr2 : (0 <= Qfloor s2 mod 60 < 60)%Z) by (apply Z.mod_pos_bound; lia).
  destruct (seconds_two_digits _ Hr1) as [L1 R1].
  destruct (seconds_two_digits _ Hr2) as [L2 R2].
  split; [exact E1|]. split; [exact L1|]. split.
  - intros H. rewrite E1, E2 in H.
    apply append_same_suffix_length in H.
    + destruct H as [Hm Hs].
      apply (f_equal read_int) in Hm. rewrite !read_show_int in Hm.
      injection Hm as Hm.
      injection Hs as Hs.
      apply (f_equal read_int) in Hs. rewrite R1, R2 in Hs.
      injection Hs as Hs.
      rewrite (Z.div_mod (Qfloor s1) 60), (Z.div_mod (Qfloor s2) 60) by lia.
      now rewrite Hm, Hs.
    + simpl. now rewrite L1, L2.
  - intros H. now rewrite E1, E2, H.
Qed.

Lemma formatTime_whole_seconds_witness :
  formatTime (Some (251 # 2)) = "2:05"%string
  /\ (formatTime (Some (251 # 2)) = formatTime (Some 125)).
Proof.
  assert (P1 : printable (251 # 2)) by (split; vm_compute; congruence).
  assert (P2 : printable 125) by (split; vm_compute; congruence).
  destruct (formatTime_whole_seconds (251 # 2) 125 P1 P2) as (E & _ & Hiff).
  split.
  - rewrite E. reflexivity.
  - apply Hiff. reflexivity.
Defined.
